(** * Shot planning of the robotic billiards player

    A shallow embedding of [ShotPlanner.cpp] and of the shot selection in
    [main.cpp].  C++ [double] values are IEEE-754 binary64 numbers, taken
    from the Standard Library's executable specification [SpecFloat];
    [std::vector<double>] is a list, and reading a vector past its end
    (undefined behaviour in C++) is the [None] result of the option monad.
    Line 60 of [ShotPlanner.cpp] is ill-typed, so that file is rejected by a
    C++ compiler as it stands: the embedding takes the one value that line
    leaves undetermined as a parameter ([Line60] below). *)

From Stdlib Require Import String ZArith List Bool Lia.
From Stdlib Require Import Floats.SpecFloat.
From Stdlib Require Import Permutation.
Import ListNotations.

(** ** IEEE-754 binary64 *)

Module F64.

Definition prec : Z := 53.
Definition emax : Z := 1024.

Definition double : Type := spec_float.

Definition add : double -> double -> double := SFadd prec emax.
Definition sub : double -> double -> double := SFsub prec emax.
Definition mul : double -> double -> double := SFmul prec emax.
Definition div : double -> double -> double := SFdiv prec emax.
Definition sqrt : double -> double := SFsqrt prec emax.
Definition abs : double -> double := SFabs.
Definition opp : double -> double := SFopp.

(** The comparisons of C++: every comparison with a NaN is false. *)
Definition ltb : double -> double -> bool := SFltb.
Definition leb : double -> double -> bool := SFleb.
Definition eqb : double -> double -> bool := SFeqb.
Definition gtb (a b : double) : bool := SFltb b a.
Definition geb (a b : double) : bool := SFleb b a.

(** An integer literal converted to [double] (exact below 2^53). *)
Definition of_Z (z : Z) : double := binary_normalize prec emax z 0 false.

(** The decimal literal [m]e-[k]: its nearest double is the correctly
    rounded quotient of the two exactly representable integers [m] and
    10^[k] (for [m] < 2^53 and [k] <= 22). *)
Definition dec (m : Z) (k : Z) : double := div (of_Z m) (of_Z (10 ^ k)).

Definition zero : double := S754_zero false.
Definition nan : double := S754_nan.
Definition infinity : double := S754_infinity false.

(** [std::numeric_limits<double>::max()] = (2^53 - 1) * 2^971. *)
Definition DBL_MAX : double := S754_finite false (2 ^ 53 - 1) 971.

(** [M_PI] = 0x1.921fb54442d18p+1. *)
Definition M_PI : double := S754_finite false 7074237752028440 (-51).

End F64.

Import F64.

Arguments add : simpl never.
Arguments sub : simpl never.
Arguments mul : simpl never.
Arguments div : simpl never.
Arguments sqrt : simpl never.
Arguments abs : simpl never.
Arguments opp : simpl never.
Arguments ltb : simpl never.
Arguments leb : simpl never.
Arguments eqb : simpl never.
Arguments gtb : simpl never.
Arguments geb : simpl never.
Arguments of_Z : simpl never.
Arguments dec : simpl never.

Declare Scope double_scope.
Delimit Scope double_scope with double.
Bind Scope double_scope with double.
Infix "+" := add : double_scope.
Infix "-" := sub : double_scope.
Infix "*" := mul : double_scope.
Infix "/" := div : double_scope.
Infix "<?" := ltb : double_scope.
Infix "<=?" := leb : double_scope.
Infix ">?" := gtb : double_scope.
Infix ">=?" := geb : double_scope.
Infix "==" := eqb (at level 70, no associativity) : double_scope.

(** ** Undefined behaviour as the option monad *)

Notation "x <- e ;; k" := (match e with Some x => k | None => None end)
  (at level 61, e at next level, right associativity).

(** [v[i]] on a [std::vector]: no bounds check in C++. *)
Definition at_ {A : Type} (v : list A) (i : nat) : option A := nth_error v i.

(** A range-[for] loop whose body appends to one output vector. *)
Fixpoint for_each {A B : Type} (l : list A) (body : A -> option (list B))
  : option (list B) :=
  match l with
  | [] => Some []
  | a :: l' =>
      r <- body a ;;
      rs <- for_each l' body ;;
      Some (r ++ rs)
  end.

(** ** Collaborators that are not in the repository's sources *)

(** [GeometryUtils.h] is included by [ShotPlanner.cpp] and [main.cpp] but is
    not among the sources: its three functions are parameters. *)
Class GeometryUtils : Type := {
  mag : double -> double -> double;
  dis : double -> double -> double -> double -> double -> double -> double;
  COS_VAL : double -> double -> double -> double -> double
}.

(** [acos] of [<cmath>].  IEC 60559 (C Annex F.10.1.1) fixes [acos(1) = +0],
    and the two zeros, equal as numbers, have the same arc cosine; nothing
    else is assumed of it. *)
Class Cmath : Type := {
  acos : double -> double;
  acos_one : acos (of_Z 1) = zero;
  acos_signed_zero : acos (S754_zero true) = acos (S754_zero false)
}.

(** The fields of [FlipShot] that [main] reads ([flip_total_distance] is its
    [total_distance]). *)
Record FlipShot : Type := {
  target_coords : list double;
  hole_coords : list double;
  flip_total_distance : double
}.

(** [FlipPlanner.h]: only the call in [main] is in the sources. *)
Class FlipPlanner : Type := {
  evaluateFlipShots :
    list double -> list (list double) -> list (list double) ->
    list (list double) -> double -> list FlipShot
}.

(** A (first, second) pair of coordinate vectors. *)
Definition shot : Type := (list double * list double)%type.

(** ** Line 60 of ShotPlanner.cpp

    The second loop nest of [selectClearShots] stores its entries with
    [cue_child_result.emplace_back(cueballs, child)].  The elements of
    [cue_child_result] are pairs of [std::vector<double>], and [cueballs] is
    a [std::vector<std::vector<double>>], from which no
    [std::vector<double>] can be constructed: the line is ill-typed and a
    C++ compiler rejects the file.  The source therefore does not say what
    the first component of an entry holds, the component the third loop nest
    reads back as [cue_ball].  It is a parameter of the embedding: a
    coordinate vector computed from the two arguments of the call, the
    cue-ball list and the object ball.  The second component is [child], as
    written.  What is proved below is proved of this embedding, for every
    such reading unless one is named; there is no compiled
    [ShotPlanner.cpp] to speak of. *)
Class Line60 : Type := {
  entry_first : list (list double) -> list double -> list double
}.

(** Two readings of the line.  The first is [emplace_back(cueballs[0],
    child)], the change of one token that makes the line compile (line 56
    has read [cueballs[0]] by then). *)
Definition stores_cue_ball : Line60 :=
  {| entry_first := fun cueballs _ => hd [] cueballs |}.

(** The second stores the object ball, which the comments of lines 73-81
    and 91-93 say the third loop nest compares with. *)
Definition stores_object_ball : Line60 :=
  {| entry_first := fun _ child => child |}.

(** ** ShotPlanner.cpp *)

Section ShotPlanner.

Context {G : GeometryUtils} {M : Cmath} {R : Line60}.

Local Open Scope double_scope.

Fixpoint isPathObstructed (x1 y1 x2 y2 : double)
    (obstacles : list (list double)) (bound_radius : double) : option bool :=
  match obstacles with
  | [] => Some false
  | obs :: rest =>
      obs_x <- at_ obs 0 ;;
      obs_y <- at_ obs 1 ;;
      let d := dis (x2 - x1) (y2 - y1) x1 y1 obs_x obs_y in
      if ((obs_x == x2) && (obs_y == y2)) || ((obs_x == x1) && (obs_y == y1))
      then isPathObstructed x1 y1 x2 y2 rest bound_radius
      else
        if abs d <? bound_radius then
          let mag_target := mag (x2 - x1) (y2 - y1) in
          let mag_obs := mag (obs_x - x1) (obs_y - y1) in
          if mag_obs <? mag_target then Some true
          else isPathObstructed x1 y1 x2 y2 rest bound_radius
        else isPathObstructed x1 y1 x2 y2 rest bound_radius
  end.

(** First loop nest: the ball-to-pocket paths. *)
Definition child_hole_body (childballs : list (list double))
    (bound_radius : double) (child hole : list double) : option (list shot) :=
  c0 <- at_ child 0 ;;
  c1 <- at_ child 1 ;;
  h0 <- at_ hole 0 ;;
  h1 <- at_ hole 1 ;;
  b <- isPathObstructed c0 c1 h0 h1 childballs bound_radius ;;
  Some (if negb b then [(child, hole)] else []).

Definition child_hole_result (holes childballs : list (list double))
    (bound_radius : double) : option (list shot) :=
  for_each childballs (fun child =>
    for_each holes (fun hole =>
      child_hole_body childballs bound_radius child hole)).

(** The strike angle in degrees, as line 58 computes it. *)
Definition angle2 (c0 c1 q0 q1 h0 h1 : double) : double :=
  abs (acos (COS_VAL (c0 - q0) (c1 - q1) (h0 - c0) (h1 - c1))
       * of_Z 180 / dec 31415926 7).

(** Second loop nest: the cue-to-ball paths.  The first component of the
    entry of line 60 is [entry_first], see [Line60]. *)
Definition cue_child_body (cueballs childballs : list (list double))
    (bound_radius : double) (child hole : list double) : option (list shot) :=
  c0 <- at_ child 0 ;;
  c1 <- at_ child 1 ;;
  cue <- at_ cueballs 0 ;;
  q0 <- at_ cue 0 ;;
  q1 <- at_ cue 1 ;;
  b <- isPathObstructed c0 c1 q0 q1 childballs bound_radius ;;
  if negb b then
    h0 <- at_ hole 0 ;;
    h1 <- at_ hole 1 ;;
    Some (if angle2 c0 c1 q0 q1 h0 h1 <? of_Z 110
          then [(entry_first cueballs child, child)] else [])
  else Some [].

Definition cue_child_result (cueballs holes childballs : list (list double))
    (bound_radius : double) : option (list shot) :=
  for_each childballs (fun child =>
    for_each holes (fun hole =>
      cue_child_body cueballs childballs bound_radius child hole)).

(** Lines 84-89: the coordinate comparison, run when the sizes agree. *)
Fixpoint is_same (child_ball cue_ball : list double) : bool :=
  match child_ball, cue_ball with
  | a :: child_ball', b :: cue_ball' =>
      if abs (a - b) >? dec 1 9 then false
      else is_same child_ball' cue_ball'
  | _, _ => true
  end.

(** Lines 70-99: the inner loop, left by [break] at the first match. *)
Fixpoint match_found (child_ball : list double) (cue_child : list shot) : bool :=
  match cue_child with
  | [] => false
  | cc :: rest =>
      let cue_ball := fst cc in
      if Nat.eqb (length child_ball) (length cue_ball) then
        if is_same child_ball cue_ball then true
        else match_found child_ball rest
      else match_found child_ball rest
  end.

(** Lines 66-100: the outer loop. *)
Fixpoint match_loop (child_hole cue_child : list shot) : list shot :=
  match child_hole with
  | [] => []
  | ch :: rest =>
      let child_ball := fst ch in
      let hole_coord := snd ch in
      if match_found child_ball cue_child
      then (child_ball, hole_coord) :: match_loop rest cue_child
      else match_loop rest cue_child
  end.

Definition selectClearShots (cueballs holes childballs : list (list double))
    (bound_radius : double) : option (list shot) :=
  ch <- child_hole_result holes childballs bound_radius ;;
  cc <- cue_child_result cueballs holes childballs bound_radius ;;
  Some (match_loop ch cc).

End ShotPlanner.

(** ** main.cpp: shot selection and the commands sent to the arm *)

(** What [main] selects: [target_ball], [target_hole], [total_distance]. *)
Record Target : Type := {
  target_ball : list double;
  target_hole : list double;
  total_distance : double
}.

(** Lines 44-46: both vectors empty, the distance 0. *)
Definition no_target : Target :=
  {| target_ball := []; target_hole := []; total_distance := zero |}.

(** How the planning part of [main] (lines 42-83) ends. *)
Inductive Plan : Type :=
  | Direct (t : Target)
  | Flip (t : Target)
  | NoShot.

(** The calls [main] makes into [RobotController] and the vendor interface,
    and what it prints. *)
Inductive event : Type :=
  | Stdout (s : string)
  | Stderr (s : string)
  | MoveToPose (device_id : Z) (hit_position : list double) (distance : double)
  | ExecuteStrike (device_id : Z) (distance : double)
  | ReturnToHome (device_id : Z) (home_pose : list double)
  | Disconnect (device_id : Z).

(** The move, strike and return-to-home commands. *)
Definition is_hardware_action (e : event) : bool :=
  match e with
  | MoveToPose _ _ _ | ExecuteStrike _ _ | ReturnToHome _ _ => true
  | _ => false
  end.

(** What [main] reads: the handle [open_connection] returned and the five
    files [loadCSV2D] and [loadSingleInt] loaded. *)
Record Inputs : Type := {
  device_id : Z;
  cueball : list (list double);
  childballs : list (list double);
  holes : list (list double);
  walls : list (list double);
  ball_count : Z
}.

Section Main.

Context {G : GeometryUtils} {M : Cmath} {R : Line60} {F : FlipPlanner}.

Local Open Scope double_scope.

(** Lines 51-55: the length of the cue-ball-to-pocket path of one shot. *)
Definition shot_dist (cueball : list (list double)) (s : shot) : option double :=
  f0 <- at_ (fst s) 0 ;;
  s0 <- at_ (snd s) 0 ;;
  let dx := f0 - s0 in
  f1 <- at_ (fst s) 1 ;;
  s1 <- at_ (snd s) 1 ;;
  let dy := f1 - s1 in
  cue <- at_ cueball 0 ;;
  q0 <- at_ cue 0 ;;
  let cue_dx := q0 - f0 in
  q1 <- at_ cue 1 ;;
  let cue_dy := q1 - f1 in
  Some (mag dx dy + mag cue_dx cue_dy).

(** Lines 50-62, with [min_dist] and the three selected values as the
    loop state. *)
Fixpoint direct_loop (cueball : list (list double)) (valid_shots : list shot)
    (min_dist : double) (t : Target) : option (double * Target) :=
  match valid_shots with
  | [] => Some (min_dist, t)
  | s :: rest =>
      dist <- shot_dist cueball s ;;
      if dist <? min_dist then
        direct_loop cueball rest dist
          {| target_ball := fst s; target_hole := snd s; total_distance := dist |}
      else direct_loop cueball rest min_dist t
  end.

(** Lines 70-75, with [best] and [total_distance] as the loop state. *)
Fixpoint flip_loop (flip_shots : list FlipShot) (best : FlipShot)
    (total_distance : double) : FlipShot * double :=
  match flip_shots with
  | [] => (best, total_distance)
  | fs :: rest =>
      if flip_total_distance fs <? flip_total_distance best then
        flip_loop rest fs (flip_total_distance fs)
      else flip_loop rest best total_distance
  end.

(** Lines 42-83. *)
Definition plan (cueball childballs holes walls : list (list double))
  : option Plan :=
  valid_shots <- selectClearShots cueball holes childballs (of_Z 15) ;;
  match valid_shots with
  | _ :: _ =>
      r <- direct_loop cueball valid_shots DBL_MAX no_target ;;
      Some (Direct (snd r))
  | [] =>
      cue <- at_ cueball 0 ;;
      let flip_shots := evaluateFlipShots cue childballs childballs walls (of_Z 15) in
      match flip_shots with
      | first :: _ =>
          let r := flip_loop flip_shots first (total_distance no_target) in
          Some (Flip {| target_ball := target_coords (fst r);
                        target_hole := hole_coords (fst r);
                        total_distance := snd r |})
      | [] => Some NoShot
      end
  end.

(** Lines 85-117: the pose of the strike.  [pow(v, 2)] is the correctly
    rounded square [v * v]; the sum of line 106 starts from 0. *)
Definition hit_pose (cueball : list (list double)) (t : Target)
  : option (list double) :=
  th0 <- at_ (target_hole t) 0 ;;
  tb0 <- at_ (target_ball t) 0 ;;
  let rel_x := th0 - tb0 in
  th1 <- at_ (target_hole t) 1 ;;
  tb1 <- at_ (target_ball t) 1 ;;
  let rel_y := th1 - tb1 in
  let rel_dis := sqrt (rel_x * rel_x + rel_y * rel_y) in
  let vector_x := rel_x / rel_dis in
  let vector_y := rel_y / rel_dis in
  cue <- at_ cueball 0 ;;
  q0 <- at_ cue 0 ;;
  let hit_x := q0 + vector_x * of_Z (15 + 3) in
  q1 <- at_ cue 1 ;;
  let hit_y := q1 + vector_y * of_Z (15 + 3) in
  let inner_product :=
    zero + vector_x * of_Z 0 + vector_y * of_Z (-1) + of_Z 0 * of_Z 0 in
  let theta := abs (acos inner_product) * of_Z 180 / M_PI in
  let yaw := if vector_x >? of_Z 0 then of_Z (-90) + theta
             else of_Z (-90) - theta in
  Some [hit_x; hit_y; of_Z 0; of_Z 0; of_Z 0; yaw].

Definition origin_point : list double :=
  [of_Z 90; of_Z 0; of_Z 0; of_Z 0; of_Z (-90); of_Z 0].

(** Lines 84-124. *)
Definition strike (dev : Z) (cueball : list (list double)) (msg : string)
    (t : Target) : option (Z * list event) :=
  hit_position <- hit_pose cueball t ;;
  Some (0%Z, [Stdout msg;
              MoveToPose dev hit_position (total_distance t);
              ExecuteStrike dev (total_distance t);
              ReturnToHome dev origin_point;
              Disconnect dev]).

(** [main]: the exit status and what it printed and commanded. *)
Definition main (inp : Inputs) : option (Z * list event) :=
  if (device_id inp <? 0)%Z then
    Some ((-1)%Z, [Stderr "Failed to connect to robot controller."%string])
  else
    p <- plan (cueball inp) (childballs inp) (holes inp) (walls inp) ;;
    match p with
    | Direct t =>
        strike (device_id inp) (cueball inp) "Selected direct shot."%string t
    | Flip t =>
        strike (device_id inp) (cueball inp) "Selected flip shot via wall."%string t
    | NoShot =>
        Some ((-1)%Z, [Stderr "No available shots (direct or flip)."%string])
    end.

End Main.

(** ** Instances used to run the code on concrete tables *)

Module Spec.

Local Open Scope double_scope.

(** Modelled from the spec: [mag] of the missing [GeometryUtils.h], section
    4.1: magnitude(dx, dy) = sqrt(dx^2 + dy^2). *)
Definition magnitude (dx dy : double) : double := sqrt (dx * dx + dy * dy).

(** Modelled from the spec: [dis] of the missing [GeometryUtils.h], section
    4.1: the signed distance from (px, py) to the line through the origin
    point with direction (lineDx, lineDy), cross product over magnitude. *)
Definition perpendicularDistance
    (lineDx lineDy originX originY px py : double) : double :=
  (lineDx * (py - originY) - lineDy * (px - originX)) / magnitude lineDx lineDy.

(** Modelled from the spec: [COS_VAL] of the missing [GeometryUtils.h],
    section 4.1: dot(a, b) / (|a| |b|). *)
Definition cosineOfAngle (ax ay bx b_y : double) : double :=
  (ax * bx + ay * b_y) / (magnitude ax ay * magnitude bx b_y).

#[export] Instance geometry : GeometryUtils :=
  {| mag := magnitude; dis := perpendicularDistance; COS_VAL := cosineOfAngle |}.

(** A reference [acos]: the polynomial 4.4.45 of Abramowitz and Stegun on
    [0, 1] (absolute error below 1e-4), mirrored for negative arguments,
    NaN outside [-1, 1]. *)
Definition acos_poly (x : double) : double :=
  sqrt (of_Z 1 - x)
  * (dec 15707288 7
     + x * (dec (-2121144) 7 + x * (dec 742610 7 + x * dec (-187293) 7))).

Definition acos_ref (x : double) : double :=
  if (of_Z 0 <=? x) && (x <=? of_Z 1) then acos_poly x
  else if (of_Z (-1) <=? x) && (x <? of_Z 0) then M_PI - acos_poly (opp x)
  else nan.

#[export] Instance cmath : Cmath :=
  {| acos := acos_ref; acos_one := eq_refl; acos_signed_zero := eq_refl |}.

(** A bank-shot generator that finds the candidates [l], whatever the
    table. *)
Definition flips (l : list FlipShot) : FlipPlanner :=
  {| evaluateFlipShots := fun _ _ _ _ _ => l |}.

(** The coordinate vector of the point ([x], [y]), in integer units. *)
Definition pt (x y : Z) : list double := [of_Z x; of_Z y].

End Spec.

(** ** The properties in the words of the specification *)

(** A coordinate vector that holds both coordinates. *)
Definition has_xy (v : list double) : Prop := 2 <= length v.

(** The precondition on the tables: there is a cue ball, and every ball and
    pocket holds both coordinates. *)
Definition wf_inputs (cueballs holes childballs : list (list double)) : Prop :=
  cueballs <> [] /\ Forall has_xy cueballs /\ Forall has_xy holes /\
  Forall has_xy childballs.

Section Obstruction.

Context {G : GeometryUtils}.

Local Open Scope double_scope.

(** Exact coordinate equality with an endpoint of the path. *)
Definition coincident (x1 y1 x2 y2 ox oy : double) : bool :=
  ((ox == x2) && (oy == y2)) || ((ox == x1) && (oy == y1)).

(** The obstacle lies nearer to the line than the radius. *)
Definition near_line (x1 y1 x2 y2 r ox oy : double) : bool :=
  abs (dis (x2 - x1) (y2 - y1) x1 y1 ox oy) <? r.

(** The obstacle lies nearer to the start than the end does. *)
Definition before_end (x1 y1 x2 y2 ox oy : double) : bool :=
  mag (ox - x1) (oy - y1) <? mag (x2 - x1) (y2 - y1).

(** The obstruction test of one obstacle, section 4.2. *)
Definition blocks (x1 y1 x2 y2 r : double) (obs : list double) : bool :=
  match obs with
  | ox :: oy :: _ =>
      negb (coincident x1 y1 x2 y2 ox oy)
      && near_line x1 y1 x2 y2 r ox oy
      && before_end x1 y1 x2 y2 ox oy
  | _ => false
  end.

Definition at_endpoint (x1 y1 x2 y2 : double) (obs : list double) : bool :=
  match obs with
  | ox :: oy :: _ => coincident x1 y1 x2 y2 ox oy
  | _ => false
  end.

End Obstruction.

(** The comparison of lines 82-89 of [selectClearShots]: the same number of
    coordinates, each pair within 1e-9. *)
Definition same_ball (child_ball stored : list double) : bool :=
  Nat.eqb (length child_ball) (length stored) && is_same child_ball stored.

(** *** Section 4.3: the two visibility sets and the match *)

Section VisibilitySets.

Context {G : GeometryUtils} {M : Cmath} {R : Line60}.

(** No ball of [obstacles] obstructs the path from [a] to [b]. *)
Definition clear_path (obstacles : list (list double)) (r : double)
    (a b : list double) : bool :=
  match a, b with
  | a0 :: a1 :: _, b0 :: b1 :: _ =>
      negb (existsb (blocks a0 a1 b0 b1 r) obstacles)
  | _, _ => false
  end.

(** The strike angle of the ball [c] towards the pocket [h] is strictly
    below 110 degrees. *)
Definition strikeable (cue c h : list double) : bool :=
  match c, cue, h with
  | c0 :: c1 :: _, q0 :: q1 :: _, h0 :: h1 :: _ =>
      (angle2 c0 c1 q0 q1 h0 h1 <? of_Z 110)%double
  | _, _, _ => false
  end.

(** Step 1: for every object ball [c] and pocket [h], the pair ([c], [h])
    when the path from [c] to [h] is unobstructed by the object balls. *)
Definition ball_to_pocket_set (holes childballs : list (list double))
    (r : double) : list shot :=
  flat_map (fun c =>
    flat_map (fun h =>
      if clear_path childballs r c h then [(c, h)] else []) holes)
    childballs.

(** Step 2: for every object ball [c] and pocket [h], an entry when the path
    from [c] to the cue ball is unobstructed and the strike angle is below
    110 degrees.  The entry holds the ball and what line 60 stores beside
    it; it does not hold the pocket. *)
Definition cue_to_ball_set (cueballs : list (list double))
    (cue : list double) (holes childballs : list (list double)) (r : double)
  : list shot :=
  flat_map (fun c =>
    flat_map (fun h =>
      if clear_path childballs r c cue && strikeable cue c h
      then [(entry_first cueballs c, c)] else []) holes)
    childballs.

(** Step 3 as lines 66-100 have it: a step-1 pair is a shot when the
    coordinate vector of its ball passes the comparison of lines 82-89
    against the first component of some step-2 entry. *)
Definition matched_by_coordinates (s1 s2 : list shot) : list shot :=
  filter (fun p => existsb (fun e => same_ball (fst p) (fst e)) s2) s1.

End VisibilitySets.


(** *** Section 4.3: the strike angle, and the match keyed on the ball index *)

(** The opposite number, or +0 for +0: what [b - a] is to [a - b]. *)
Definition reversed (x x' : double) : Prop :=
  x' = opp x \/ (x = zero /\ x' = zero).

Definition is_zero (x : double) : bool :=
  match x with
  | S754_zero _ => true
  | _ => false
  end.

(** The same double, or two zeros. *)
Definition same_value (x x' : double) : Prop :=
  x' = x \/ (is_zero x = true /\ is_zero x' = true).

(** The angle in degrees between the vector from the ball (c0, c1) to the
    cue ball (q0, q1) and the vector from the pocket (h0, h1) to the ball. *)
Definition spec_strike_angle {G : GeometryUtils} {M : Cmath}
    (c0 c1 q0 q1 h0 h1 : double) : double :=
  abs (acos (COS_VAL (q0 - c0) (q1 - c1) (c0 - h0) (c1 - h1))
       * of_Z 180 / dec 31415926 7)%double.

Definition indexed {A : Type} (l : list A) : list (nat * A) :=
  combine (seq 0 (length l)) l.

Section SpecSelect.

Context {G : GeometryUtils} {M : Cmath} {R : Line60}.

(** Step 1: the (ball, pocket) pairs with a clear path, each with the index
    of its ball. *)
Definition spec_ball_to_pocket (holes childballs : list (list double))
    (radius : double) : option (list (nat * shot)) :=
  for_each (indexed childballs) (fun ic =>
    for_each holes (fun hole =>
      l <- child_hole_body childballs radius (snd ic) hole ;;
      Some (map (pair (fst ic)) l))).

(** Step 2: the index of the ball, once for every pocket whose strike angle
    is below 110 degrees, when the path to the cue ball is clear. *)
Definition spec_cue_to_ball (cueBall holes childballs : list (list double))
    (radius : double) : option (list nat) :=
  for_each (indexed childballs) (fun ic =>
    for_each holes (fun hole =>
      l <- cue_child_body cueBall childballs radius (snd ic) hole ;;
      Some (map (fun _ => fst ic) l))).

(** Step 3: a step-1 pair is a shot when step 2 has an entry of the same
    ball index. *)
Definition spec_match (s1 : list (nat * shot)) (s2 : list nat) : list shot :=
  map snd (filter (fun e => existsb (Nat.eqb (fst e)) s2) s1).

Definition spec_selectClearShots (cueBall holes childballs : list (list double))
    (radius : double) : option (list shot) :=
  s1 <- spec_ball_to_pocket holes childballs radius ;;
  s2 <- spec_cue_to_ball cueBall holes childballs radius ;;
  Some (spec_match s1 s2).

End SpecSelect.

(** *** Section 4.5: the candidate of least distance, the first on ties *)

(** A number: any double but a NaN. *)
Definition is_number (x : double) : bool := leb x x.

(** In the list [pre ++ x :: post] the candidate [x] is the first one of
    minimum distance: its distance is a number, strictly below the distance
    of every candidate before it, and at most the distance of every
    candidate after it.  At most one position of a list qualifies. *)
Definition first_least {A : Type} (d : A -> double)
    (pre : list A) (x : A) (post : list A) : Prop :=
  is_number (d x) = true /\
  Forall (fun y => ltb (d x) (d y) = true) pre /\
  Forall (fun y => leb (d x) (d y) = true) post.

(** The distance of a direct shot, NaN where [shot_dist] is out of bounds. *)
Definition dist_of {G : GeometryUtils} (cueball : list (list double))
    (s : shot) : double :=
  match shot_dist cueball s with
  | Some d => d
  | None => nan
  end.

(** The target [main] records for a direct shot. *)
Definition direct_target {G : GeometryUtils} (cueball : list (list double))
    (s : shot) : Target :=
  {| target_ball := fst s; target_hole := snd s;
     total_distance := dist_of cueball s |}.

(** The events of a run with the device handle erased. *)
Definition erase_device (e : event) : event :=
  match e with
  | MoveToPose _ p d => MoveToPose 0 p d
  | ExecuteStrike _ d => ExecuteStrike 0 d
  | ReturnToHome _ p => ReturnToHome 0 p
  | Disconnect _ => Disconnect 0
  | _ => e
  end.

Definition erase_devices (r : option (Z * list event)) : option (Z * list event) :=
  match r with
  | Some (status, evs) => Some (status, map erase_device evs)
  | None => None
  end.

(** *** Loop invariants *)

(** The state of the direct loop after the shots [seen]. *)
Definition direct_inv {G : GeometryUtils} (cueball : list (list double)) (seen : list shot)
    (min_dist : double) (t : Target) : Prop :=
  Forall (fun y => ltb (dist_of cueball y) min_dist = false) seen /\
  ((min_dist = DBL_MAX /\ t = no_target) \/
   exists pre s post,
     seen = pre ++ s :: post /\ min_dist = dist_of cueball s /\
     t = direct_target cueball s /\
     Forall (fun y => leb (dist_of cueball y) (dist_of cueball s) = false) pre).

(** The state of the flip loop after the candidates [seen]: the reported
    distance is the best one only once the first candidate was replaced. *)
Definition flip_inv (seen : list FlipShot) (best : FlipShot)
    (td0 td : double) : Prop :=
  exists pre post,
    seen = pre ++ best :: post /\
    Forall (fun y => ltb (flip_total_distance y) (flip_total_distance best)
                     = false) seen /\
    Forall (fun y => leb (flip_total_distance y) (flip_total_distance best)
                     = false) pre /\
    td = match pre with [] => td0 | _ :: _ => flip_total_distance best end.


(** *** Proof automation *)

Ltac solve_has_xy :=
  repeat match goal with
         | |- Forall _ _ => constructor
         | |- has_xy _ => unfold has_xy; cbn [length Spec.pt]; lia
         end.

Ltac float_order :=
  repeat match goal with
         | |- context [Z.compare ?a ?b] =>
             destruct (Z.compare_spec a b); subst; try lia
         | H : context [Z.compare ?a ?b] |- _ =>
             destruct (Z.compare_spec a b); subst; try lia
         | |- context [Pos.compare_cont Eq ?a ?b] =>
             change (Pos.compare_cont Eq a b) with (Pos.compare a b);
             destruct (Pos.compare_spec a b); subst; try lia
         | H : context [Pos.compare_cont Eq ?a ?b] |- _ =>
             change (Pos.compare_cont Eq a b) with (Pos.compare a b) in H;
             destruct (Pos.compare_spec a b); subst; try lia
         end;
  cbn [CompOpp] in *; try discriminate; try reflexivity; try lia.

(** ** RobotController.cpp *)

(** The calls into the vendor interface [HRSDK.h], the pauses and the
    console output of [RobotController.cpp] and of [main]. *)
Inductive hr_event : Type :=
  | Cout (s : string)
  | CoutDouble (d : double)
  | Cerr (s : string)
  | GetMotionState (device_id : Z)
  | PtpPos (device_id mode : Z) (pose : list double)
  | LinPos (device_id mode smooth : Z) (pose : list double)
  | PtpAxis (device_id mode : Z) (pose : list double)
  | SetDigitalOutput (device_id index : Z) (value : bool)
  | Sleep (ms : Z)
  | DisconnectCall (device_id : Z).

(** How a call that polls the arm ends, given the successive answers of
    [get_motion_state]: it returns, leaving the answers it did not read; or
    the answers run out while [wait] is still polling; or it reads an array
    past its end. *)
Inductive outcome : Type :=
  | Returned (trace : list hr_event) (rest : list Z)
  | Waiting (trace : list hr_event)
  | OutOfBounds.

Definition trace_of (o : outcome) : list hr_event :=
  match o with
  | Returned trace _ => trace
  | Waiting trace => trace
  | OutOfBounds => []
  end.

(** Sequencing: [k] runs on the answers [o] left. *)
Definition then_ (o : outcome) (k : list Z -> outcome) : outcome :=
  match o with
  | Returned trace rest =>
      match k rest with
      | Returned trace' rest' => Returned (trace ++ trace') rest'
      | Waiting trace' => Waiting (trace ++ trace')
      | OutOfBounds => OutOfBounds
      end
  | Waiting trace => Waiting trace
  | OutOfBounds => OutOfBounds
  end.

Definition call (trace : list hr_event) (states : list Z) : outcome :=
  Returned trace states.

(** [wait]: polls until [get_motion_state] answers 1. *)
Fixpoint wait (device_id : Z) (states : list Z) : outcome :=
  match states with
  | [] => Waiting []
  | s :: rest =>
      if (s =? 1)%Z then Returned [GetMotionState device_id] rest
      else then_ (Returned [GetMotionState device_id] rest) (wait device_id)
  end.

Definition moveToPose (device_id : Z) (hit_position : list double)
    (distance : double) (states : list Z) : outcome :=
  match at_ hit_position 0, at_ hit_position 1, at_ hit_position 2,
        at_ hit_position 5 with
  | Some x, Some y, Some z, Some yaw =>
      let pos_cueball := [x; y; z; of_Z 0; of_Z 0; yaw] in
      then_ (then_ (then_ (call [PtpPos device_id 0 pos_cueball] states)
                          (wait device_id))
                   (call [LinPos device_id 0 0 pos_cueball]))
            (wait device_id)
  | _, _, _, _ => OutOfBounds
  end.

(** Seven calls of [set_digital_output], on the outputs 15 down to 9. *)
Definition set_outputs (device_id : Z) (o15 o14 o13 o12 o11 o10 o9 : bool)
  : list hr_event :=
  [SetDigitalOutput device_id 15 o15; SetDigitalOutput device_id 14 o14;
   SetDigitalOutput device_id 13 o13; SetDigitalOutput device_id 12 o12;
   SetDigitalOutput device_id 11 o11; SetDigitalOutput device_id 10 o10;
   SetDigitalOutput device_id 9 o9].

(** Lines 43-122 of [executeStrike]: the hit power. *)
Definition strike_intensity (device_id : Z) (distance : double)
  : list hr_event :=
  let hit_power := set_outputs device_id true true true true true true true in
  let report := [Cout "Distance: "; CoutDouble distance] in
  let first_chain :=
    if (distance <=? of_Z 100)%double then
      Cout "really close"
      :: set_outputs device_id true false false false false false false
    else if ((distance >=? of_Z 100) && (distance <? of_Z 150))%double then
      Cout "very close"
      :: set_outputs device_id false true false false false false false
    else if ((distance >=? of_Z 150) && (distance <? of_Z 175))%double then
      Cout "close"
      :: set_outputs device_id false false true false false false false
    else [] in
  let second_chain :=
    if ((distance >=? of_Z 175) && (distance <? of_Z 200))%double then
      Cout "a little bit close"
      :: set_outputs device_id false false true false false false false
    else if ((distance >=? of_Z 200) && (distance <? of_Z 250))%double then
      Cout "middle"
      :: set_outputs device_id false false true false false false false
    else if ((distance >=? of_Z 250) && (distance <? of_Z 350))%double then
      Cout "a little bit far"
      :: set_outputs device_id false false false true false false false
    else if ((distance >=? of_Z 350) && (distance <? of_Z 450))%double then
      Cout "far"
      :: set_outputs device_id false false false false false true false
    else [Cout "really far"] in
  hit_power ++ report ++ first_chain ++ second_chain.

(** Lines 124-129: the pulse on the trigger output. *)
Definition strike_trigger (device_id : Z) : list hr_event :=
  [SetDigitalOutput device_id 16 false; Sleep 500;
   SetDigitalOutput device_id 16 true; Sleep 500;
   SetDigitalOutput device_id 16 false].

Definition strike_commands (device_id : Z) (distance : double)
  : list hr_event :=
  strike_intensity device_id distance ++ strike_trigger device_id.

Definition executeStrike (device_id : Z) (distance : double)
    (states : list Z) : outcome :=
  then_ (call (strike_commands device_id distance) states) (wait device_id).

Definition returnToHome (device_id : Z) (home_pose : list double)
    (states : list Z) : outcome :=
  then_ (call [PtpAxis device_id 0 home_pose] states) (wait device_id).

(** What one step of [main] does to the arm and the console. *)
Definition perform (e : event) (states : list Z) : outcome :=
  match e with
  | Stdout s => call [Cout s] states
  | Stderr s => call [Cerr s] states
  | MoveToPose dev hit_position distance =>
      moveToPose dev hit_position distance states
  | ExecuteStrike dev distance => executeStrike dev distance states
  | ReturnToHome dev home_pose => returnToHome dev home_pose states
  | Disconnect dev => call [DisconnectCall dev] states
  end.

Fixpoint perform_all (evs : list event) (states : list Z) : outcome :=
  match evs with
  | [] => Returned [] states
  | e :: evs' => then_ (perform e states) (perform_all evs')
  end.

(** *** Reading a trace *)

(** The value the trace leaves on a digital output: its last write. *)
Definition digital_output (device_id : Z) (trace : list hr_event) (index : Z)
  : option bool :=
  fold_left
    (fun acc e =>
       match e with
       | SetDigitalOutput dev i v =>
           if ((dev =? device_id) && (i =? index))%Z then Some v else acc
       | _ => acc
       end)
    trace None.

(** The values written to the trigger output 16, in order. *)
Definition trigger_writes (trace : list hr_event) : list bool :=
  flat_map (fun e => match e with
                     | SetDigitalOutput _ 16 v => [v]
                     | _ => []
                     end) trace.

(** The single intensity output a distance selects, [None] when all seven
    stay on. *)
Definition strike_output (distance : double) : option Z :=
  if (distance <=? of_Z 100)%double then Some 15%Z
  else if ((of_Z 100 <=? distance) && (distance <? of_Z 150))%double
  then Some 14%Z
  else if ((of_Z 150 <=? distance) && (distance <? of_Z 250))%double
  then Some 13%Z
  else if ((of_Z 250 <=? distance) && (distance <? of_Z 350))%double
  then Some 12%Z
  else if ((of_Z 350 <=? distance) && (distance <? of_Z 450))%double
  then Some 10%Z
  else None.

(** The values of the outputs 15 down to 9 when [k] is the output selected. *)
Definition intensity_pattern (k : option Z) : list (option bool) :=
  map (fun i => match k with
                | Some j => Some (i =? j)%Z
                | None => Some true
                end) [15; 14; 13; 12; 11; 10; 9]%Z.

(** The seven tests of [executeStrike] and the range test of
    [strike_output]. *)
Definition strike_tests (d : double)
  : bool * bool * bool * bool * bool * bool * bool * bool :=
  ((d <=? of_Z 100), ((d >=? of_Z 100) && (d <? of_Z 150)),
   ((d >=? of_Z 150) && (d <? of_Z 175)),
   ((d >=? of_Z 175) && (d <? of_Z 200)),
   ((d >=? of_Z 200) && (d <? of_Z 250)),
   ((d >=? of_Z 250) && (d <? of_Z 350)),
   ((d >=? of_Z 350) && (d <? of_Z 450)),
   ((of_Z 150 <=? d) && (d <? of_Z 250)))%double.

(** The number of times the arm answers "motion complete". *)
Definition completions (states : list Z) : nat := count_occ Z.eq_dec states 1%Z.

(** [f] never reads an array past its end, returns once the arm has
    answered "motion complete" [n] times, and polls on until then. *)
Definition consumes (f : list Z -> outcome) (n : nat) : Prop :=
  forall states,
    (n <= completions states ->
     exists trace rest,
       f states = Returned trace rest /\
       completions rest = completions states - n) /\
    (completions states < n -> exists trace, f states = Waiting trace).

Definition writes_output (e : hr_event) : bool :=
  match e with
  | SetDigitalOutput _ _ _ => true
  | _ => false
  end.

(** A number that is neither an infinity nor a NaN. *)
Definition is_finite (x : double) : bool :=
  match x with
  | S754_zero _ | S754_finite _ _ _ => true
  | _ => false
  end.

(** *** Proof automation for the comparisons with constants *)

Ltac pick_tuple :=
  solve [cbn [In]; repeat (first [left; reflexivity | right])].

(** * Properties *)

(** ** The obstruction test, obstacle by obstacle *)

Lemma has_xy_cons (v : list double) :
  has_xy v -> exists a b tl, v = a :: b :: tl.
Proof.
  destruct v as [|a [|b tl]]; unfold has_xy; simpl; intros Hlen;
    try lia.
  now exists a, b, tl.
Qed.

Lemma has_xy_at (v : list double) :
  has_xy v <-> exists a b, at_ v 0 = Some a /\ at_ v 1 = Some b.
Proof.
  split.
  - intros Hv. destruct (has_xy_cons _ Hv) as (a & b & tl & ->).
    now exists a, b.
  - intros (a & b & H0 & H1). destruct v as [|a' [|b' tl]];
      try discriminate. unfold has_xy. simpl. lia.
Qed.

Section ObstructionFacts.

Context {G : GeometryUtils}.

Local Open Scope double_scope.

Lemma isPathObstructed_cons x1 y1 x2 y2 r ox oy tl rest :
  isPathObstructed x1 y1 x2 y2 ((ox :: oy :: tl) :: rest) r =
  if blocks x1 y1 x2 y2 r (ox :: oy :: tl) then Some true
  else isPathObstructed x1 y1 x2 y2 rest r.
Proof.
  cbn [isPathObstructed at_ nth_error blocks].
  unfold coincident, near_line, before_end.
  destruct (((ox == x2) && (oy == y2)) || ((ox == x1) && (oy == y1)));
    cbn [negb andb]; [reflexivity|].
  destruct (abs (dis (x2 - x1) (y2 - y1) x1 y1 ox oy) <? r);
    cbn [andb]; [|reflexivity].
  now destruct (mag (ox - x1) (oy - y1) <? mag (x2 - x1) (y2 - y1)).
Qed.

(** On obstacles that hold their coordinates the loop is an [existsb]. *)
Lemma isPathObstructed_existsb x1 y1 x2 y2 obstacles r :
  Forall has_xy obstacles ->
  isPathObstructed x1 y1 x2 y2 obstacles r =
  Some (existsb (blocks x1 y1 x2 y2 r) obstacles).
Proof.
  induction 1 as [|obs rest Hobs _ IH]; [reflexivity|].
  destruct (has_xy_cons _ Hobs) as (ox & oy & tl & ->).
  rewrite isPathObstructed_cons, IH. cbn [existsb].
  now destruct (blocks x1 y1 x2 y2 r (ox :: oy :: tl)).
Qed.

Lemma isPathObstructed_total x1 y1 x2 y2 obstacles r :
  Forall has_xy obstacles ->
  exists b, isPathObstructed x1 y1 x2 y2 obstacles r = Some b.
Proof.
  intros Hwf. rewrite (isPathObstructed_existsb _ _ _ _ _ _ Hwf). eauto.
Qed.

(** The first obstacle is always indexed. *)
Lemma isPathObstructed_first x1 y1 x2 y2 obs rest r b :
  isPathObstructed x1 y1 x2 y2 (obs :: rest) r = Some b -> has_xy obs.
Proof.
  destruct obs as [|ox [|oy tl]]; cbn [isPathObstructed at_ nth_error];
    try discriminate.
  intros _. unfold has_xy. simpl. lia.
Qed.

Lemma blocks_not_at_endpoint x1 y1 x2 y2 r obs :
  at_endpoint x1 y1 x2 y2 obs = true -> blocks x1 y1 x2 y2 r obs = false.
Proof.
  destruct obs as [|ox [|oy tl]]; try reflexivity.
  cbn [at_endpoint blocks]. now intros ->.
Qed.

Lemma existsb_blocks_filter x1 y1 x2 y2 r obstacles :
  existsb (blocks x1 y1 x2 y2 r)
    (filter (fun obs => negb (at_endpoint x1 y1 x2 y2 obs)) obstacles) =
  existsb (blocks x1 y1 x2 y2 r) obstacles.
Proof.
  induction obstacles as [|obs rest IH]; [reflexivity|].
  cbn [filter existsb].
  destruct (at_endpoint x1 y1 x2 y2 obs) eqn:E; cbn [negb existsb].
  - now rewrite (blocks_not_at_endpoint _ _ _ _ r _ E), IH.
  - now rewrite IH.
Qed.

End ObstructionFacts.


(** ** Loops that append *)

Section ForEach.

Context {A B : Type}.

Lemma for_each_total (l : list A) (body : A -> option (list B)) :
  (forall a, In a l -> exists r, body a = Some r) ->
  exists rs, for_each l body = Some rs.
Proof.
  induction l as [|a l IH]; intros Hbody; cbn [for_each]; [eauto|].
  destruct (Hbody a (or_introl eq_refl)) as [r ->].
  destruct IH as [rs ->]; [intros; apply Hbody; now right|eauto].
Qed.

Lemma for_each_cons_inv (a : A) (l : list A) (body : A -> option (list B)) rs :
  for_each (a :: l) body = Some rs ->
  exists r rs', body a = Some r /\ for_each l body = Some rs' /\ rs = r ++ rs'.
Proof.
  cbn [for_each]. destruct (body a) as [r|]; [|discriminate].
  destruct (for_each l body) as [rs'|]; [|discriminate].
  intros [= <-]. eauto.
Qed.

Lemma for_each_body (l : list A) (body : A -> option (list B)) rs a :
  for_each l body = Some rs -> In a l ->
  exists r, body a = Some r /\ incl r rs.
Proof.
  revert rs. induction l as [|a' l IH]; intros rs Hrs Hin; [easy|].
  destruct (for_each_cons_inv _ _ _ _ Hrs) as (r & rs' & Ha & Hl & ->).
  destruct Hin as [->|Hin].
  - exists r. split; [assumption|]. now apply incl_appl, incl_refl.
  - destruct (IH _ Hl Hin) as (r' & Hr' & Hincl). exists r'.
    split; [assumption|]. now apply incl_appr.
Qed.

Lemma for_each_elem (l : list A) (body : A -> option (list B)) rs x :
  for_each l body = Some rs -> In x rs ->
  exists a r, In a l /\ body a = Some r /\ In x r.
Proof.
  revert rs. induction l as [|a l IH]; intros rs Hrs Hin.
  - injection Hrs as <-. easy.
  - destruct (for_each_cons_inv _ _ _ _ Hrs) as (r & rs' & Ha & Hl & ->).
    apply in_app_or in Hin. destruct Hin as [Hin|Hin].
    + exists a, r. repeat split; [now left|assumption|assumption].
    + destruct (IH _ Hl Hin) as (a' & r' & Ha' & Hr' & Hx).
      exists a', r'. repeat split; [now right|assumption|assumption].
Qed.

(** A loop whose body never fails appends what the bodies give, in
    order. *)
Lemma for_each_flat_map (l : list A) (body : A -> option (list B))
      (g : A -> list B) :
  (forall a, In a l -> body a = Some (g a)) ->
  for_each l body = Some (flat_map g l).
Proof.
  induction l as [|a l IH]; intros Hbody; [reflexivity|].
  cbn [for_each flat_map]. rewrite (Hbody a (or_introl eq_refl)), IH;
    [reflexivity|].
  intros a' Hin. apply Hbody. now right.
Qed.

End ForEach.

(** ** In-bounds accesses of [selectClearShots] *)

Section Totality.

Context {G : GeometryUtils} {M : Cmath} {R : Line60}.

Lemma child_hole_body_total childballs r child hole :
  Forall has_xy childballs -> has_xy child -> has_xy hole ->
  exists l, child_hole_body childballs r child hole = Some l.
Proof.
  intros Hballs Hc Hh.
  destruct (has_xy_cons _ Hc) as (c0 & c1 & tc & ->).
  destruct (has_xy_cons _ Hh) as (h0 & h1 & th & ->).
  unfold child_hole_body. cbn [at_ nth_error].
  destruct (isPathObstructed_total c0 c1 h0 h1 _ r Hballs) as [b ->]. eauto.
Qed.

Lemma cue_child_body_total cueballs childballs r child hole :
  wf_inputs cueballs [hole] childballs -> has_xy child ->
  exists l, cue_child_body cueballs childballs r child hole = Some l.
Proof.
  intros (Hne & Hcue & Hh & Hballs) Hc.
  destruct cueballs as [|cue cueballs]; [easy|].
  apply Forall_inv in Hcue, Hh.
  destruct (has_xy_cons _ Hc) as (c0 & c1 & tc & ->).
  destruct (has_xy_cons _ Hh) as (h0 & h1 & th & ->).
  destruct (has_xy_cons _ Hcue) as (q0 & q1 & tq & ->).
  unfold cue_child_body. cbn [at_ nth_error].
  destruct (isPathObstructed_total c0 c1 q0 q1 _ r Hballs) as [b ->].
  destruct b; cbn [negb]; eauto.
Qed.

Lemma selectClearShots_total cueballs holes childballs r :
  wf_inputs cueballs holes childballs ->
  exists res, selectClearShots cueballs holes childballs r = Some res.
Proof.
  intros (Hne & Hcue & Hholes & Hballs). unfold selectClearShots.
  assert (H1 : exists ch, child_hole_result holes childballs r = Some ch).
  { apply for_each_total. intros child Hc. apply for_each_total.
    intros hole Hh. rewrite Forall_forall in Hballs, Hholes.
    apply child_hole_body_total; [now apply Forall_forall| |]; auto. }
  assert (H2 : exists cc,
             cue_child_result cueballs holes childballs r = Some cc).
  { apply for_each_total. intros child Hc. apply for_each_total.
    intros hole Hh. pose proof Hballs as Hballs'.
    rewrite Forall_forall in Hballs', Hholes.
    apply cue_child_body_total; [|now auto].
    repeat split; auto. }
  destruct H1 as [ch ->], H2 as [cc ->]. eauto.
Qed.

(** With a ball and a pocket on the table the cue ball is read. *)
Lemma selectClearShots_reads_cue cueballs hole holes child childballs r res :
  selectClearShots cueballs (hole :: holes) (child :: childballs) r = Some res ->
  exists cue, at_ cueballs 0 = Some cue /\ has_xy cue /\ has_xy child /\
              has_xy hole.
Proof.
  unfold selectClearShots.
  destruct (child_hole_result _ _ _) as [ch|] eqn:E1; [|discriminate].
  destruct (cue_child_result _ _ _ _) as [cc|] eqn:E2; [|discriminate].
  intros _. unfold cue_child_result in E2. unfold child_hole_result in E1.
  apply for_each_cons_inv in E1. destruct E1 as (r1 & _ & E1 & _).
  apply for_each_cons_inv in E1. destruct E1 as (r1' & _ & E1 & _).
  apply for_each_cons_inv in E2. destruct E2 as (r2 & _ & E2 & _).
  apply for_each_cons_inv in E2. destruct E2 as (r2' & _ & E2 & _).
  unfold cue_child_body in E2. unfold child_hole_body in E1.
  destruct (at_ child 0) as [c0|] eqn:Ec0; [|discriminate].
  destruct (at_ child 1) as [c1|] eqn:Ec1; [|discriminate].
  destruct (at_ hole 0) as [h0|] eqn:Eh0; [|discriminate].
  destruct (at_ hole 1) as [h1|] eqn:Eh1; [|discriminate].
  destruct (at_ cueballs 0) as [cue|] eqn:Ecue; [|discriminate].
  destruct (at_ cue 0) as [q0|] eqn:Eq0; [|discriminate].
  destruct (at_ cue 1) as [q1|] eqn:Eq1; [|discriminate].
  exists cue. repeat split; try apply has_xy_at; eauto.
Qed.

End Totality.


(** ** The matching loops of [selectClearShots] *)

Lemma match_found_existsb (child_ball : list double) (cue_child : list shot) :
  match_found child_ball cue_child =
  existsb (fun e => same_ball child_ball (fst e)) cue_child.
Proof.
  induction cue_child as [|cc rest IH]; [reflexivity|].
  cbn [match_found existsb]. unfold same_ball at 1.
  destruct (Nat.eqb (length child_ball) (length (fst cc))); cbn [andb orb];
    [|exact IH].
  destruct (is_same child_ball (fst cc)); cbn [orb]; [reflexivity|exact IH].
Qed.

Lemma match_loop_filter (child_hole cue_child : list shot) :
  match_loop child_hole cue_child =
  filter (fun p => existsb (fun e => same_ball (fst p) (fst e)) cue_child)
         child_hole.
Proof.
  induction child_hole as [|[child_ball hole_coord] rest IH]; [reflexivity|].
  cbn [match_loop filter fst snd]. rewrite match_found_existsb, IH.
  reflexivity.
Qed.

Section SelectFacts.

Context {G : GeometryUtils} {M : Cmath} {R : Line60}.

Local Open Scope double_scope.

(** What one iteration of the second loop nest appends. *)
Lemma cue_child_body_clear cueballs childballs r cue child hole
      c0 c1 q0 q1 h0 h1 :
  at_ cueballs 0 = Some cue -> at_ cue 0 = Some q0 -> at_ cue 1 = Some q1 ->
  at_ child 0 = Some c0 -> at_ child 1 = Some c1 ->
  at_ hole 0 = Some h0 -> at_ hole 1 = Some h1 ->
  isPathObstructed c0 c1 q0 q1 childballs r = Some false ->
  cue_child_body cueballs childballs r child hole =
  Some (if angle2 c0 c1 q0 q1 h0 h1 <? of_Z 110
        then [(entry_first cueballs child, child)] else []).
Proof.
  intros Hcue Hq0 Hq1 Hc0 Hc1 Hh0 Hh1 Hclear. unfold cue_child_body.
  rewrite Hc0, Hc1, Hcue, Hq0, Hq1, Hclear. cbn [negb].
  now rewrite Hh0, Hh1.
Qed.

(** Every entry the second loop nest appends holds the object ball of an
    iteration whose path to the cue ball is clear and whose pocket is at a
    strike angle below 110 degrees. *)
Lemma cue_child_body_elem cueballs childballs r child hole l e :
  cue_child_body cueballs childballs r child hole = Some l -> In e l ->
  exists cue c0 c1 q0 q1 h0 h1,
    at_ cueballs 0 = Some cue /\ at_ cue 0 = Some q0 /\ at_ cue 1 = Some q1 /\
    at_ child 0 = Some c0 /\ at_ child 1 = Some c1 /\
    at_ hole 0 = Some h0 /\ at_ hole 1 = Some h1 /\
    isPathObstructed c0 c1 q0 q1 childballs r = Some false /\
    (angle2 c0 c1 q0 q1 h0 h1 <? of_Z 110) = true /\
    e = (entry_first cueballs child, child).
Proof.
  unfold cue_child_body.
  destruct (at_ child 0) as [c0|] eqn:Ec0; [|discriminate].
  destruct (at_ child 1) as [c1|] eqn:Ec1; [|discriminate].
  destruct (at_ cueballs 0) as [cue|] eqn:Ecue; [|discriminate].
  destruct (at_ cue 0) as [q0|] eqn:Eq0; [|discriminate].
  destruct (at_ cue 1) as [q1|] eqn:Eq1; [|discriminate].
  destruct (isPathObstructed c0 c1 q0 q1 childballs r) as [[|]|] eqn:Eo;
    cbn [negb]; try discriminate.
  - intros [= <-]. easy.
  - destruct (at_ hole 0) as [h0|] eqn:Eh0; [|discriminate].
    destruct (at_ hole 1) as [h1|] eqn:Eh1; [|discriminate].
    destruct (angle2 c0 c1 q0 q1 h0 h1 <? of_Z 110) eqn:Ea;
      intros [= <-] Hin; [|easy].
    destruct Hin as [<-|[]].
    exists cue, c0, c1, q0, q1, h0, h1. repeat split; auto.
Qed.

Lemma cue_child_result_elem cueballs holes childballs r cc e :
  cue_child_result cueballs holes childballs r = Some cc -> In e cc ->
  exists child hole cue c0 c1 q0 q1 h0 h1,
    In child childballs /\ In hole holes /\
    at_ cueballs 0 = Some cue /\ at_ cue 0 = Some q0 /\ at_ cue 1 = Some q1 /\
    at_ child 0 = Some c0 /\ at_ child 1 = Some c1 /\
    at_ hole 0 = Some h0 /\ at_ hole 1 = Some h1 /\
    isPathObstructed c0 c1 q0 q1 childballs r = Some false /\
    (angle2 c0 c1 q0 q1 h0 h1 <? of_Z 110) = true /\
    e = (entry_first cueballs child, child).
Proof.
  intros Hcc Hin. unfold cue_child_result in Hcc.
  destruct (for_each_elem _ _ _ _ Hcc Hin) as (child & l & Hchild & Hl & Hel).
  destruct (for_each_elem _ _ _ _ Hl Hel) as (hole & l' & Hhole & Hl' & Hel').
  destruct (cue_child_body_elem _ _ _ _ _ _ _ Hl' Hel')
    as (cue & c0 & c1 & q0 & q1 & h0 & h1 & H).
  exists child, hole, cue, c0, c1, q0, q1, h0, h1. tauto.
Qed.

Lemma child_hole_result_elem holes childballs r ch p :
  child_hole_result holes childballs r = Some ch -> In p ch ->
  exists c0 c1 h0 h1,
    In (fst p) childballs /\ In (snd p) holes /\
    at_ (fst p) 0 = Some c0 /\ at_ (fst p) 1 = Some c1 /\
    at_ (snd p) 0 = Some h0 /\ at_ (snd p) 1 = Some h1 /\
    isPathObstructed c0 c1 h0 h1 childballs r = Some false.
Proof.
  intros Hch Hin. unfold child_hole_result in Hch.
  destruct (for_each_elem _ _ _ _ Hch Hin) as (child & l & Hchild & Hl & Hel).
  destruct (for_each_elem _ _ _ _ Hl Hel) as (hole & l' & Hhole & Hl' & Hel').
  unfold child_hole_body in Hl'.
  destruct (at_ child 0) as [c0|] eqn:Ec0; [|discriminate].
  destruct (at_ child 1) as [c1|] eqn:Ec1; [|discriminate].
  destruct (at_ hole 0) as [h0|] eqn:Eh0; [|discriminate].
  destruct (at_ hole 1) as [h1|] eqn:Eh1; [|discriminate].
  destruct (isPathObstructed c0 c1 h0 h1 childballs r) as [[|]|] eqn:Eo;
    cbn [negb] in Hl'; try discriminate; injection Hl' as <-; [easy|].
  destruct Hel' as [<-|[]]. exists c0, c1, h0, h1. cbn [fst snd].
  repeat split; assumption.
Qed.

Lemma selectClearShots_filter cueballs holes childballs r res :
  selectClearShots cueballs holes childballs r = Some res <->
  exists ch cc,
    child_hole_result holes childballs r = Some ch /\
    cue_child_result cueballs holes childballs r = Some cc /\
    res = filter (fun p => existsb (fun e => same_ball (fst p) (fst e)) cc) ch.
Proof.
  unfold selectClearShots. split.
  - destruct (child_hole_result _ _ _) as [ch|]; [|discriminate].
    destruct (cue_child_result _ _ _ _) as [cc|]; [|discriminate].
    intros [= <-]. exists ch, cc. now rewrite match_loop_filter.
  - intros (ch & cc & -> & -> & ->). now rewrite match_loop_filter.
Qed.

(** *** The loop nests on tables that hold their coordinates *)

Lemma child_hole_body_spec childballs r child hole :
  Forall has_xy childballs -> has_xy child -> has_xy hole ->
  child_hole_body childballs r child hole =
  Some (if clear_path childballs r child hole then [(child, hole)] else []).
Proof.
  intros Hballs Hc Hh.
  destruct (has_xy_cons _ Hc) as (c0 & c1 & tc & ->).
  destruct (has_xy_cons _ Hh) as (h0 & h1 & th & ->).
  unfold child_hole_body. cbn [at_ nth_error clear_path].
  now rewrite (isPathObstructed_existsb _ _ _ _ _ _ Hballs).
Qed.

Lemma child_hole_result_spec holes childballs r :
  Forall has_xy holes -> Forall has_xy childballs ->
  child_hole_result holes childballs r =
  Some (ball_to_pocket_set holes childballs r).
Proof.
  intros Hholes Hballs. unfold child_hole_result, ball_to_pocket_set.
  apply for_each_flat_map. intros child Hc.
  apply for_each_flat_map. intros hole Hh.
  apply child_hole_body_spec; [assumption| |].
  - rewrite Forall_forall in Hballs. now apply Hballs.
  - rewrite Forall_forall in Hholes. now apply Hholes.
Qed.

Lemma cue_child_body_spec cueballs childballs r cue child hole :
  at_ cueballs 0 = Some cue -> has_xy cue ->
  Forall has_xy childballs -> has_xy child -> has_xy hole ->
  cue_child_body cueballs childballs r child hole =
  Some (if clear_path childballs r child cue && strikeable cue child hole
        then [(entry_first cueballs child, child)] else []).
Proof.
  intros Hcue Hq Hballs Hc Hh.
  destruct (has_xy_cons _ Hc) as (c0 & c1 & tc & ->).
  destruct (has_xy_cons _ Hh) as (h0 & h1 & th & ->).
  destruct (has_xy_cons _ Hq) as (q0 & q1 & tq & ->).
  unfold cue_child_body. rewrite Hcue.
  cbn [at_ nth_error clear_path strikeable].
  rewrite (isPathObstructed_existsb _ _ _ _ _ _ Hballs).
  now destruct (existsb (blocks c0 c1 q0 q1 r) childballs).
Qed.

Lemma cue_child_result_spec cueballs holes childballs r cue :
  at_ cueballs 0 = Some cue -> has_xy cue ->
  Forall has_xy holes -> Forall has_xy childballs ->
  cue_child_result cueballs holes childballs r =
  Some (cue_to_ball_set cueballs cue holes childballs r).
Proof.
  intros Hcue Hq Hholes Hballs. unfold cue_child_result, cue_to_ball_set.
  apply for_each_flat_map. intros child Hc.
  apply for_each_flat_map. intros hole Hh.
  apply cue_child_body_spec; try assumption.
  - rewrite Forall_forall in Hballs. now apply Hballs.
  - rewrite Forall_forall in Hholes. now apply Hholes.
Qed.

Lemma selectClearShots_spec cueballs holes childballs r cue :
  at_ cueballs 0 = Some cue -> has_xy cue ->
  Forall has_xy holes -> Forall has_xy childballs ->
  selectClearShots cueballs holes childballs r =
  Some (matched_by_coordinates (ball_to_pocket_set holes childballs r)
          (cue_to_ball_set cueballs cue holes childballs r)).
Proof.
  intros Hcue Hq Hholes Hballs. unfold selectClearShots.
  rewrite (child_hole_result_spec _ _ _ Hholes Hballs),
          (cue_child_result_spec _ _ _ _ _ Hcue Hq Hholes Hballs),
          match_loop_filter.
  reflexivity.
Qed.

(** An entry of the second set, read off the table. *)
Lemma cue_to_ball_set_elem cueballs cue holes childballs r e :
  In e (cue_to_ball_set cueballs cue holes childballs r) <->
  exists c h,
    In c childballs /\ In h holes /\
    clear_path childballs r c cue = true /\ strikeable cue c h = true /\
    e = (entry_first cueballs c, c).
Proof.
  unfold cue_to_ball_set. rewrite in_flat_map. split.
  - intros (c & Hc & Hin). apply in_flat_map in Hin.
    destruct Hin as (h & Hh & Hin).
    destruct (clear_path childballs r c cue) eqn:Hclear; [|easy].
    destruct (strikeable cue c h) eqn:Hangle; [|easy].
    destruct Hin as [<-|[]]. now exists c, h.
  - intros (c & h & Hc & Hh & Hclear & Hangle & ->).
    exists c. split; [assumption|]. apply in_flat_map.
    exists h. split; [assumption|]. rewrite Hclear, Hangle. now left.
Qed.

End SelectFacts.


(** ** Claims on the obstruction detector *)

(** C3.  On obstacles that hold their two coordinates, [isPathObstructed]
    returns, and it returns true exactly when some obstacle of the list that
    is not coordinate-equal ([==] on both coordinates) to the start or to the
    end has |[dis]| to the line through start and end strictly below the
    radius and [mag] from the start strictly below the start-to-end [mag].
    Hence it returns false when no obstacle is both within the radius of the
    line and nearer to the start than the end is.  The bound is the distance
    from the start, not a projection on the segment: with the geometry of
    section 4.1 the obstacle (-50, 0), behind the start of the path from
    (0, 0) to (100, 0), obstructs it for the radius 15. *)
Theorem isPathObstructed_true_iff :
  forall (G : GeometryUtils) (x1 y1 x2 y2 : double)
         (obstacles : list (list double)) (r : double),
    Forall has_xy obstacles ->
    (exists b, isPathObstructed x1 y1 x2 y2 obstacles r = Some b) /\
    (isPathObstructed x1 y1 x2 y2 obstacles r = Some true <->
     exists obs ox oy,
       In obs obstacles /\ at_ obs 0 = Some ox /\ at_ obs 1 = Some oy /\
       coincident x1 y1 x2 y2 ox oy = false /\
       (abs (dis (x2 - x1) (y2 - y1) x1 y1 ox oy) <? r)%double = true /\
       (mag (ox - x1) (oy - y1) <? mag (x2 - x1) (y2 - y1))%double = true) /\
    ((forall obs ox oy,
         In obs obstacles -> at_ obs 0 = Some ox -> at_ obs 1 = Some oy ->
         (abs (dis (x2 - x1) (y2 - y1) x1 y1 ox oy) <? r)%double
         && (mag (ox - x1) (oy - y1) <? mag (x2 - x1) (y2 - y1))%double
         = false) ->
     isPathObstructed x1 y1 x2 y2 obstacles r = Some false) /\
    isPathObstructed (G := Spec.geometry) (of_Z 0) (of_Z 0) (of_Z 100) (of_Z 0)
      [Spec.pt (-50) 0] (of_Z 15) = Some true.
Proof.
  intros G x1 y1 x2 y2 obstacles r Hwf.
  rewrite (isPathObstructed_existsb _ _ _ _ _ _ Hwf).
  split; [eauto|]. split; [|split].
  - split.
    + intros [= Hex]. apply existsb_exists in Hex.
      destruct Hex as (obs & Hin & Hb).
      destruct obs as [|ox [|oy tl]]; try discriminate.
      cbn [blocks] in Hb. unfold near_line, before_end in Hb.
      apply andb_prop in Hb. destruct Hb as [Hb Hbefore].
      apply andb_prop in Hb. destruct Hb as [Hco Hnear].
      apply negb_true_iff in Hco.
      exists (ox :: oy :: tl), ox, oy. repeat split; assumption.
    + intros (obs & ox & oy & Hin & H0 & H1 & Hco & Hnear & Hbefore).
      f_equal. apply existsb_exists. exists obs. split; [assumption|].
      destruct obs as [|ox' [|oy' tl]]; try discriminate.
      cbn [at_ nth_error] in H0, H1. injection H0 as ->. injection H1 as ->.
      cbn [blocks]. unfold near_line, before_end.
      now rewrite Hco, Hnear, Hbefore.
  - intros Hnone. f_equal. apply not_true_is_false. intros Hex.
    apply existsb_exists in Hex. destruct Hex as (obs & Hin & Hb).
    destruct obs as [|ox [|oy tl]]; try discriminate.
    specialize (Hnone _ ox oy Hin eq_refl eq_refl).
    cbn [blocks] in Hb. unfold near_line, before_end in Hb.
    rewrite <- andb_assoc, Hnone, andb_false_r in Hb. discriminate.
  - vm_compute. reflexivity.
Qed.

(** The midpoint (50, 0) obstructs the path from (0, 0) to (100, 0). *)
Lemma isPathObstructed_true_iff_witness :
  Forall has_xy [Spec.pt 50 0] /\
  isPathObstructed (G := Spec.geometry) (of_Z 0) (of_Z 0) (of_Z 100) (of_Z 0)
    [Spec.pt 50 0] (of_Z 15) = Some true.
Proof.
  assert (Hwf : Forall has_xy [Spec.pt 50 0]) by solve_has_xy.
  split; [exact Hwf|].
  destruct (isPathObstructed_true_iff Spec.geometry (of_Z 0) (of_Z 0)
              (of_Z 100) (of_Z 0) [Spec.pt 50 0] (of_Z 15) Hwf)
    as (_ & Hiff & _).
  apply Hiff. exists (Spec.pt 50 0), (of_Z 50), (of_Z 0).
  repeat split; try (now left); vm_compute; reflexivity.
Defined.

(** C7.  An obstacle whose two coordinates are [==] to those of the start or
    of the end is skipped: taking such obstacles out of the list never
    changes the answer, and a list of such obstacles never obstructs.  The
    test is exact: an obstacle that fails it is judged by the two distance
    tests alone, so with the geometry of section 4.1 the obstacle at
    (1e-9, 0), next to the start (0, 0), still obstructs the path to
    (100, 0), where the obstacles (0, 0) and (100, 0) do not. *)
Theorem endpoint_obstacles_never_obstruct :
  forall (G : GeometryUtils) (x1 y1 x2 y2 : double)
         (obstacles : list (list double)) (r : double),
    Forall has_xy obstacles ->
    isPathObstructed x1 y1 x2 y2 obstacles r =
    isPathObstructed x1 y1 x2 y2
      (filter (fun obs => negb (at_endpoint x1 y1 x2 y2 obs)) obstacles) r /\
    (Forall (fun obs => at_endpoint x1 y1 x2 y2 obs = true) obstacles ->
     isPathObstructed x1 y1 x2 y2 obstacles r = Some false) /\
    (forall ox oy tl,
        coincident x1 y1 x2 y2 ox oy = false ->
        isPathObstructed x1 y1 x2 y2 [ox :: oy :: tl] r =
        Some (near_line x1 y1 x2 y2 r ox oy && before_end x1 y1 x2 y2 ox oy)) /\
    (coincident (of_Z 0) (of_Z 0) (of_Z 100) (of_Z 0) (dec 1 9) (of_Z 0) = false /\
     isPathObstructed (G := Spec.geometry) (of_Z 0) (of_Z 0) (of_Z 100) (of_Z 0)
       [[dec 1 9; of_Z 0]] (of_Z 15) = Some true /\
     isPathObstructed (G := Spec.geometry) (of_Z 0) (of_Z 0) (of_Z 100) (of_Z 0)
       [Spec.pt 0 0; Spec.pt 100 0] (of_Z 15) = Some false).
Proof.
  intros G x1 y1 x2 y2 obstacles r Hwf.
  assert (Hwf' : Forall has_xy
            (filter (fun obs => negb (at_endpoint x1 y1 x2 y2 obs)) obstacles)).
  { rewrite Forall_forall in *. intros obs Hin.
    apply filter_In in Hin. now apply Hwf. }
  split; [|split; [|split]].
  - rewrite (isPathObstructed_existsb _ _ _ _ _ _ Hwf).
    rewrite (isPathObstructed_existsb _ _ _ _ _ _ Hwf').
    now rewrite existsb_blocks_filter.
  - intros Hall. rewrite (isPathObstructed_existsb _ _ _ _ _ _ Hwf).
    f_equal. apply not_true_is_false. intros Hex.
    apply existsb_exists in Hex. destruct Hex as (obs & Hin & Hb).
    rewrite Forall_forall in Hall.
    rewrite (blocks_not_at_endpoint _ _ _ _ r _ (Hall _ Hin)) in Hb.
    discriminate.
  - intros ox oy tl Hco. rewrite isPathObstructed_cons. cbn [blocks].
    rewrite Hco. cbn [negb andb isPathObstructed].
    now destruct (near_line x1 y1 x2 y2 r ox oy && before_end x1 y1 x2 y2 ox oy).
  - repeat split; vm_compute; reflexivity.
Qed.

(** Two balls on the endpoints of a path and one beside it. *)
Lemma endpoint_obstacles_never_obstruct_witness :
  Forall has_xy [Spec.pt 0 0; Spec.pt 50 0; Spec.pt 100 0] /\
  isPathObstructed (G := Spec.geometry) (of_Z 0) (of_Z 0) (of_Z 100) (of_Z 0)
    [Spec.pt 0 0; Spec.pt 50 0; Spec.pt 100 0] (of_Z 15) =
  isPathObstructed (G := Spec.geometry) (of_Z 0) (of_Z 0) (of_Z 100) (of_Z 0)
    [Spec.pt 50 0] (of_Z 15).
Proof.
  assert (Hwf : Forall has_xy [Spec.pt 0 0; Spec.pt 50 0; Spec.pt 100 0])
    by solve_has_xy.
  split; [exact Hwf|].
  exact (proj1 (endpoint_obstacles_never_obstruct Spec.geometry (of_Z 0)
                  (of_Z 0) (of_Z 100) (of_Z 0) _ (of_Z 15) Hwf)).
Defined.


(** ** Claims on [selectClearShots] *)

(** C10.  Under the precondition that the cue-ball list is not empty and
    every ball, pocket and obstacle vector holds two coordinates,
    [selectClearShots] and [isPathObstructed] return: every access to
    element [0] of the cue-ball list and to elements [0] and [1] of a
    coordinate vector is in bounds, the out-of-bounds result [None] is not
    reached.  This holds whatever line 60 stores. *)
Theorem selectClearShots_in_bounds :
  forall (G : GeometryUtils) (M : Cmath) (R : Line60)
         (cueballs holes childballs obstacles : list (list double))
         (r : double),
    wf_inputs cueballs holes childballs ->
    Forall has_xy obstacles ->
    (exists res, selectClearShots cueballs holes childballs r = Some res) /\
    (forall x1 y1 x2 y2,
        exists b, isPathObstructed x1 y1 x2 y2 obstacles r = Some b).
Proof.
  intros G M R cueballs holes childballs obstacles r Hwf Hobs. split.
  - now apply selectClearShots_total.
  - intros x1 y1 x2 y2. now apply isPathObstructed_total.
Qed.

(** A table with one ball of each kind, and two obstacles. *)
Lemma selectClearShots_in_bounds_witness :
  wf_inputs [Spec.pt 0 0] [Spec.pt 200 0] [Spec.pt 100 0] /\
  Forall has_xy [Spec.pt 50 0; Spec.pt 150 40] /\
  (exists res,
      selectClearShots (G := Spec.geometry) (M := Spec.cmath)
        (R := stores_cue_ball)
        [Spec.pt 0 0] [Spec.pt 200 0] [Spec.pt 100 0] (of_Z 15) = Some res) /\
  (exists b,
      isPathObstructed (G := Spec.geometry) (of_Z 0) (of_Z 0) (of_Z 100)
        (of_Z 0) [Spec.pt 50 0; Spec.pt 150 40] (of_Z 15) = Some b).
Proof.
  assert (Hwf : wf_inputs [Spec.pt 0 0] [Spec.pt 200 0] [Spec.pt 100 0]).
  { repeat split; [discriminate| | |]; solve_has_xy. }
  assert (Hobs : Forall has_xy [Spec.pt 50 0; Spec.pt 150 40])
    by solve_has_xy.
  split; [exact Hwf|]. split; [exact Hobs|].
  destruct (selectClearShots_in_bounds Spec.geometry Spec.cmath
              stores_cue_ball _ _ _ _ (of_Z 15) Hwf Hobs) as [Hsel Hpath].
  split; [exact Hsel|apply Hpath].
Defined.

(** C10 as stated fails: the precondition is not necessary.  With no object
    ball on the table [selectClearShots] returns the empty list without
    reading the empty cue-ball list, and [isPathObstructed] returns at the
    first obstructing obstacle without indexing the empty vector after it. *)
Lemma totality_without_precondition :
  (forall R : Line60,
      selectClearShots (G := Spec.geometry) (M := Spec.cmath) (R := R)
        [] [Spec.pt 200 0] [] (of_Z 15) = Some []) /\
  ~ wf_inputs [] [Spec.pt 200 0] [] /\
  isPathObstructed (G := Spec.geometry) (of_Z 0) (of_Z 0) (of_Z 100) (of_Z 0)
    [Spec.pt 50 0; []] (of_Z 15) = Some true /\
  ~ Forall has_xy [Spec.pt 50 0; []].
Proof.
  split; [reflexivity|]. split; [intros (Hne & _); now apply Hne|].
  split; [vm_compute; reflexivity|].
  intros Hwf. apply Forall_inv_tail, Forall_inv in Hwf.
  unfold has_xy in Hwf. cbn [length] in Hwf. lia.
Qed.

(** *** The strike angle does not depend on the direction of its vectors *)

Lemma binary_round_opp (m : positive) (e : Z) :
  binary_round prec emax true m e = opp (binary_round prec emax false m e).
Proof.
  unfold binary_round, binary_round_aux.
  destruct (shl_align m e _) as [mz ez].
  destruct (shr_fexp prec emax (Z.pos mz) ez loc_Exact) as [mrs' e'].
  destruct (shr_fexp prec emax _ e' loc_Exact) as [mrs'' e''].
  destruct (shr_m mrs''); try reflexivity.
  now destruct (Z.leb e'' (emax - prec)).
Qed.

Lemma binary_normalize_opp (m e : Z) :
  binary_normalize prec emax (- m) e false =
  match m with
  | Z0 => zero
  | _ => opp (binary_normalize prec emax m e false)
  end.
Proof.
  destruct m as [|p|p]; cbn [binary_normalize Z.opp]; try reflexivity.
  - apply binary_round_opp.
  - rewrite binary_round_opp. unfold opp.
    now destruct (binary_round prec emax false p e) as [[]|[]| |[] ? ?].
Qed.

(** [b - a] is [a - b] reversed. *)
Lemma sub_swap (a b : double) : reversed (sub a b) (sub b a).
Proof.
  unfold reversed, sub, opp, zero.
  destruct a as [sa|sa| |sa ma ea], b as [sb|sb| |sb mb eb];
    cbn [SFsub SFopp]; try (left; reflexivity);
    try (destruct sa, sb; cbn; auto; fail).
  change (IntDef.Z.min eb ea) with (Z.min eb ea).
  change (IntDef.Z.min ea eb) with (Z.min ea eb).
  rewrite (Z.min_comm eb ea).
  set (A := cond_Zopp sa _). set (B := cond_Zopp sb _).
  replace (B - A)%Z with (- (A - B))%Z by lia.
  rewrite binary_normalize_opp.
  destruct (A - B)%Z eqn:E; [right|left|left]; try reflexivity.
  split; reflexivity.
Qed.

Lemma mul_opp_opp (a b : double) : mul (opp a) (opp b) = mul a b.
Proof.
  unfold mul, opp.
  destruct a as [sa|sa| |sa ma ea], b as [sb|sb| |sb mb eb];
    cbn [SFmul SFopp]; try reflexivity;
    destruct sa, sb; reflexivity.
Qed.

Lemma mul_reversed (a a' b b' : double) :
  reversed a a' -> reversed b b' -> same_value (mul a b) (mul a' b').
Proof.
  unfold reversed, same_value, mul, opp, zero.
  intros [->|[-> ->]] [->|[-> ->]].
  - left. apply mul_opp_opp.
  - destruct a as [sa|sa| |sa ma ea]; cbn; auto.
  - destruct b as [sb|sb| |sb mb eb]; cbn; auto.
  - now left.
Qed.

Lemma mul_square_reversed (a a' : double) :
  reversed a a' -> mul a' a' = mul a a.
Proof. intros [->|[-> ->]]; [apply mul_opp_opp|reflexivity]. Qed.

Lemma magnitude_reversed (a a' b b' : double) :
  reversed a a' -> reversed b b' -> Spec.magnitude a' b' = Spec.magnitude a b.
Proof.
  intros Ha Hb. unfold Spec.magnitude.
  now rewrite (mul_square_reversed _ _ Ha), (mul_square_reversed _ _ Hb).
Qed.

Lemma add_same_value (p p' q q' : double) :
  same_value p p' -> same_value q q' -> same_value (add p q) (add p' q').
Proof.
  unfold same_value, add.
  intros [->|[Hp Hp']] [->|[Hq Hq']]; [now left| | |].
  - destruct q as [[]|?| |? ? ?]; try discriminate;
      destruct q' as [[]|?| |? ? ?]; try discriminate;
      destruct p as [[]|[]| |? ? ?]; cbn; auto.
  - destruct p as [[]|?| |? ? ?]; try discriminate;
      destruct p' as [[]|?| |? ? ?]; try discriminate;
      destruct q as [[]|[]| |? ? ?]; cbn; auto.
  - destruct p as [[]|?| |? ? ?]; try discriminate;
      destruct p' as [[]|?| |? ? ?]; try discriminate;
      destruct q as [[]|?| |? ? ?]; try discriminate;
      destruct q' as [[]|?| |? ? ?]; try discriminate; cbn; auto.
Qed.

Lemma div_same_value (n n' d : double) :
  same_value n n' -> same_value (div n d) (div n' d).
Proof.
  unfold same_value, div. intros [->|[Hn Hn']]; [now left|].
  destruct n as [?|?| |? ? ?]; try discriminate;
    destruct n' as [?|?| |? ? ?]; try discriminate;
    destruct d as [?|?| |? ? ?]; cbn; auto.
Qed.

Lemma acos_same_value (M : Cmath) (x x' : double) :
  same_value x x' -> acos x' = acos x.
Proof.
  intros [->|[Hx Hx']]; [reflexivity|].
  destruct x as [[]|?| |? ? ?]; try discriminate;
    destruct x' as [[]|?| |? ? ?]; try discriminate;
    try reflexivity; [symmetry|]; apply acos_signed_zero.
Qed.

(** With the geometry of section 4.1 the angle of line 58, between the
    vectors from the cue ball to the ball and from the ball to the pocket,
    is the angle between the reversed vectors, to the last bit. *)
Lemma angle2_is_spec_strike_angle (M : Cmath) (c0 c1 q0 q1 h0 h1 : double) :
  angle2 (G := Spec.geometry) c0 c1 q0 q1 h0 h1 =
  spec_strike_angle (G := Spec.geometry) c0 c1 q0 q1 h0 h1.
Proof.
  unfold angle2, spec_strike_angle. cbn [COS_VAL Spec.geometry].
  unfold Spec.cosineOfAngle. do 3 f_equal. symmetry.
  pose proof (sub_swap c0 q0) as Hux. pose proof (sub_swap c1 q1) as Huy.
  pose proof (sub_swap h0 c0) as Hvx. pose proof (sub_swap h1 c1) as Hvy.
  rewrite (magnitude_reversed _ _ _ _ Hux Huy),
          (magnitude_reversed _ _ _ _ Hvx Hvy).
  apply acos_same_value, div_same_value, add_same_value;
    now apply mul_reversed.
Qed.

(** C8, as the code has it.  On a table that holds its coordinates the
    second loop nest returns, and the cue-to-ball set it builds is, in loop
    order, one entry for every object ball [c] and pocket [h] such that the
    path from [c] to the cue ball is clear and [angle2] is strictly below
    110 (a NaN is not below 110).  An entry holds the ball [c] beside what
    line 60 stores, and it does not hold the pocket: the set holds an entry
    of the ball [c] exactly when the path from [c] to the cue ball is clear
    and some pocket is at an angle below 110, and as many entries of [c] as
    there are such pockets.  [angle2] is the angle in degrees
    (180 / 3.1415926 to the radian) between the vector from the cue ball to
    the ball and the vector from the ball to the pocket; with the geometry
    of section 4.1 it is, to the last bit, the angle between the vector from
    the ball to the cue ball and the vector from the pocket to the ball. *)
Theorem cue_to_ball_set_holds_strikeable_balls :
  forall (G : GeometryUtils) (M : Cmath) (R : Line60)
         (cueballs holes childballs : list (list double)) (r : double)
         (cue : list double),
    at_ cueballs 0 = Some cue -> has_xy cue ->
    Forall has_xy holes -> Forall has_xy childballs ->
    (exists cc,
        cue_child_result cueballs holes childballs r = Some cc /\
        cc = cue_to_ball_set cueballs cue holes childballs r /\
        cc = flat_map (fun c =>
               repeat (entry_first cueballs c, c)
                 (length (filter (fun h => clear_path childballs r c cue
                                           && strikeable cue c h) holes)))
               childballs /\
        forall c,
          In c (map snd cc) <->
          In c childballs /\ clear_path childballs r c cue = true /\
          exists h, In h holes /\ strikeable cue c h = true) /\
    (forall c0 c1 tc q0 q1 tq h0 h1 th,
        clear_path childballs r (c0 :: c1 :: tc) (q0 :: q1 :: tq) =
        negb (existsb (blocks c0 c1 q0 q1 r) childballs) /\
        strikeable (q0 :: q1 :: tq) (c0 :: c1 :: tc) (h0 :: h1 :: th) =
        (angle2 c0 c1 q0 q1 h0 h1 <? of_Z 110)%double) /\
    (forall c0 c1 q0 q1 h0 h1,
        angle2 (G := Spec.geometry) c0 c1 q0 q1 h0 h1 =
        spec_strike_angle (G := Spec.geometry) c0 c1 q0 q1 h0 h1).
Proof.
  intros G M R cueballs holes childballs r cue Hcue Hq Hholes Hballs.
  split; [|split].
  - exists (cue_to_ball_set cueballs cue holes childballs r).
    split; [now apply cue_child_result_spec|]. split; [reflexivity|]. split.
    + unfold cue_to_ball_set. apply flat_map_ext. intros c. clear.
      induction holes as [|h holes IH]; [reflexivity|].
      cbn [flat_map filter]. rewrite IH.
      now destruct (clear_path childballs r c cue && strikeable cue c h).
    + intros c. rewrite in_map_iff. split.
      * intros (e & <- & He). apply cue_to_ball_set_elem in He.
        destruct He as (c' & h & Hc & Hh & Hclear & Hangle & ->).
        cbn [snd]. eauto.
      * intros (Hc & Hclear & h & Hh & Hangle).
        exists (entry_first cueballs c, c). split; [reflexivity|].
        apply cue_to_ball_set_elem. now exists c, h.
  - intros. split; reflexivity.
  - apply angle2_is_spec_strike_angle.
Qed.

(** The ball (100, 0) between the cue ball (0, 0) and the pocket (200, 0),
    with a second pocket at (-200, 0) behind the cue ball: one entry. *)
Lemma cue_to_ball_set_holds_strikeable_balls_witness :
  cue_child_result (G := Spec.geometry) (M := Spec.cmath)
    (R := stores_object_ball)
    [Spec.pt 0 0] [Spec.pt 200 0; Spec.pt (-200) 0] [Spec.pt 100 0] (of_Z 15)
  = Some [(Spec.pt 100 0, Spec.pt 100 0)].
Proof.
  assert (Hq : has_xy (Spec.pt 0 0)) by solve_has_xy.
  assert (Hholes : Forall has_xy [Spec.pt 200 0; Spec.pt (-200) 0])
    by solve_has_xy.
  assert (Hballs : Forall has_xy [Spec.pt 100 0]) by solve_has_xy.
  destruct (proj1 (cue_to_ball_set_holds_strikeable_balls Spec.geometry
                     Spec.cmath stores_object_ball [Spec.pt 0 0]
                     [Spec.pt 200 0; Spec.pt (-200) 0] [Spec.pt 100 0]
                     (of_Z 15) (Spec.pt 0 0) eq_refl Hq Hholes Hballs))
    as (cc & Hcc & -> & _).
  rewrite Hcc. vm_compute. reflexivity.
Defined.

(** C8 as stated fails.  On the table with the cue ball (0, 0), the ball
    (100, 0) and the pockets (200, 0) and (-200, 0), the path from the ball
    to the cue ball is clear and the strike angle towards the pocket
    (-200, 0) is 180 degrees (with the reference [acos]), not below 110;
    yet the set holds the entry of the ball, appended for the pocket
    (200, 0), and it is the very set of the table without the pocket
    (-200, 0): whatever line 60 stores, the set does not say for which
    pocket a ball was kept. *)
Lemma cue_to_ball_set_keeps_no_pocket :
  (forall R : Line60,
      cue_child_result (G := Spec.geometry) (M := Spec.cmath) (R := R)
        [Spec.pt 0 0] [Spec.pt 200 0; Spec.pt (-200) 0] [Spec.pt 100 0]
        (of_Z 15)
      = Some [(entry_first [Spec.pt 0 0] (Spec.pt 100 0), Spec.pt 100 0)] /\
      cue_child_result (G := Spec.geometry) (M := Spec.cmath) (R := R)
        [Spec.pt 0 0] [Spec.pt 200 0] [Spec.pt 100 0] (of_Z 15)
      = Some [(entry_first [Spec.pt 0 0] (Spec.pt 100 0), Spec.pt 100 0)]) /\
  isPathObstructed (G := Spec.geometry) (of_Z 100) (of_Z 0) (of_Z 0) (of_Z 0)
    [Spec.pt 100 0] (of_Z 15) = Some false /\
  (spec_strike_angle (G := Spec.geometry) (M := Spec.cmath)
     (of_Z 100) (of_Z 0) (of_Z 0) (of_Z 0) (of_Z (-200)) (of_Z 0)
   <? of_Z 110)%double = false /\
  (angle2 (G := Spec.geometry) (M := Spec.cmath)
     (of_Z 100) (of_Z 0) (of_Z 0) (of_Z 0) (of_Z (-200)) (of_Z 0)
   <? of_Z 110)%double = false /\
  (of_Z 179 <? angle2 (G := Spec.geometry) (M := Spec.cmath)
     (of_Z 100) (of_Z 0) (of_Z 0) (of_Z 0) (of_Z (-200)) (of_Z 0))%double
  = true.
Proof.
  split; [intros R; split; vm_compute; reflexivity|].
  repeat split; vm_compute; reflexivity.
Qed.

(** C1, as the code has it.  On a table that holds its coordinates, and
    whatever line 60 stores, both loop nests return their visibility sets
    and [selectClearShots] returns exactly the step-1 pairs, in step-1 order
    and each once, whose object ball has as many coordinates as, and lies
    within 1e-9 in every coordinate of, the first component of some step-2
    entry.  The match compares coordinate vectors; no ball index is kept or
    compared. *)
Theorem selectClearShots_matches_coordinates :
  forall (G : GeometryUtils) (M : Cmath) (R : Line60)
         (cueballs holes childballs : list (list double)) (r : double)
         (cue : list double),
    at_ cueballs 0 = Some cue -> has_xy cue ->
    Forall has_xy holes -> Forall has_xy childballs ->
    child_hole_result holes childballs r =
    Some (ball_to_pocket_set holes childballs r) /\
    cue_child_result cueballs holes childballs r =
    Some (cue_to_ball_set cueballs cue holes childballs r) /\
    selectClearShots cueballs holes childballs r =
    Some (filter
            (fun p =>
               existsb (fun e => same_ball (fst p) (fst e))
                 (cue_to_ball_set cueballs cue holes childballs r))
            (ball_to_pocket_set holes childballs r)) /\
    (forall res,
        selectClearShots cueballs holes childballs r = Some res ->
        forall p,
          In p res <->
          In p (ball_to_pocket_set holes childballs r) /\
          exists c,
            In c childballs /\ clear_path childballs r c cue = true /\
            (exists h, In h holes /\ strikeable cue c h = true) /\
            same_ball (fst p) (entry_first cueballs c) = true).
Proof.
  intros G M R cueballs holes childballs r cue Hcue Hq Hholes Hballs.
  pose proof (selectClearShots_spec _ _ _ r _ Hcue Hq Hholes Hballs) as Hsel.
  split; [now apply child_hole_result_spec|].
  split; [now apply cue_child_result_spec|].
  split; [exact Hsel|].
  intros res Hres p. rewrite Hsel in Hres. injection Hres as <-.
  unfold matched_by_coordinates. rewrite filter_In, existsb_exists.
  split.
  - intros (Hp & e & He & Hsame). split; [assumption|].
    apply cue_to_ball_set_elem in He.
    destruct He as (c & h & Hc & Hh & Hclear & Hangle & ->).
    exists c. cbn [fst] in Hsame. eauto 8.
  - intros (Hp & c & Hc & Hclear & (h & Hh & Hangle) & Hsame).
    split; [assumption|]. exists (entry_first cueballs c, c).
    split; [|assumption]. apply cue_to_ball_set_elem. now exists c, h.
Qed.

(** The table of the first scenario and a second ball at (100, 60), with
    the object ball stored on line 60: both balls are shots. *)
Lemma selectClearShots_matches_coordinates_witness :
  selectClearShots (G := Spec.geometry) (M := Spec.cmath)
    (R := stores_object_ball)
    [Spec.pt 0 0] [Spec.pt 200 0] [Spec.pt 100 0; Spec.pt 100 60]
    (of_Z 15)
  = Some [(Spec.pt 100 0, Spec.pt 200 0); (Spec.pt 100 60, Spec.pt 200 0)].
Proof.
  assert (Hq : has_xy (Spec.pt 0 0)) by solve_has_xy.
  assert (Hholes : Forall has_xy [Spec.pt 200 0]) by solve_has_xy.
  assert (Hballs : Forall has_xy [Spec.pt 100 0; Spec.pt 100 60])
    by solve_has_xy.
  etransitivity;
    [exact (proj1 (proj2 (proj2
              (selectClearShots_matches_coordinates Spec.geometry Spec.cmath
                 stores_object_ball [Spec.pt 0 0] [Spec.pt 200 0]
                 [Spec.pt 100 0; Spec.pt 100 60] (of_Z 15) (Spec.pt 0 0)
                 eq_refl Hq Hholes Hballs))))
    |vm_compute; reflexivity].
Defined.

(** The first scenario of section 8 with the geometry of section 4.1: the
    ball (100, 0) lies between the cue ball (0, 0) and the pocket (200, 0),
    the cosine of the strike angle is 1 and [acos(1) = +0], whatever else
    [acos] computes. *)
Lemma first_scenario_cue_child_body (M : Cmath) (R : Line60) :
  cue_child_body (G := Spec.geometry) [Spec.pt 0 0] [Spec.pt 100 0] (of_Z 15)
    (Spec.pt 100 0) (Spec.pt 200 0) =
  Some [(entry_first [Spec.pt 0 0] (Spec.pt 100 0), Spec.pt 100 0)].
Proof.
  assert (Hclear :
    isPathObstructed (G := Spec.geometry) (of_Z 100) (of_Z 0) (of_Z 0) (of_Z 0)
      [Spec.pt 100 0] (of_Z 15) = Some false) by (vm_compute; reflexivity).
  rewrite (cue_child_body_clear (G := Spec.geometry) [Spec.pt 0 0]
             [Spec.pt 100 0] (of_Z 15) (Spec.pt 0 0) (Spec.pt 100 0)
             (Spec.pt 200 0) (of_Z 100) (of_Z 0) (of_Z 0) (of_Z 0) (of_Z 200)
             (of_Z 0) eq_refl eq_refl eq_refl eq_refl eq_refl eq_refl eq_refl
             Hclear).
  unfold angle2.
  replace (COS_VAL (of_Z 100 - of_Z 0) (of_Z 0 - of_Z 0)
             (of_Z 200 - of_Z 100) (of_Z 0 - of_Z 0))%double
    with (of_Z 1) by (vm_compute; reflexivity).
  rewrite acos_one.
  replace (abs (zero * of_Z 180 / dec 31415926 7) <? of_Z 110)%double
    with true by (vm_compute; reflexivity).
  reflexivity.
Qed.

Lemma first_scenario_cue_child_result (M : Cmath) (R : Line60) :
  cue_child_result (G := Spec.geometry) [Spec.pt 0 0] [Spec.pt 200 0]
    [Spec.pt 100 0] (of_Z 15) =
  Some [(entry_first [Spec.pt 0 0] (Spec.pt 100 0), Spec.pt 100 0)].
Proof.
  unfold cue_child_result. cbn [for_each].
  now rewrite first_scenario_cue_child_body.
Qed.

(** A vector of two NaN passes the comparison of lines 82-89 against every
    vector of two coordinates. *)
Lemma nan_ball_matches (f : list double) :
  length f = 2 -> same_ball [nan; nan] f = true.
Proof.
  destruct f as [|a [|b [|c f]]]; try discriminate. intros _. reflexivity.
Qed.

(** On the table of the first scenario with a second ball whose two
    coordinates are NaN, the match on the ball index returns the pair of the
    ball (100, 0) alone, whatever line 60 stores. *)
Lemma nan_table_index_match (R : Line60) :
  spec_selectClearShots (G := Spec.geometry) (M := Spec.cmath)
    [Spec.pt 0 0] [Spec.pt 200 0] [Spec.pt 100 0; [nan; nan]] (of_Z 15)
  = Some [(Spec.pt 100 0, Spec.pt 200 0)].
Proof. vm_compute. reflexivity. Qed.

Lemma nan_table_sets (R : Line60) :
  child_hole_result (G := Spec.geometry)
    [Spec.pt 200 0] [Spec.pt 100 0; [nan; nan]] (of_Z 15)
  = Some [(Spec.pt 100 0, Spec.pt 200 0); ([nan; nan], Spec.pt 200 0)] /\
  cue_child_result (G := Spec.geometry) (M := Spec.cmath)
    [Spec.pt 0 0] [Spec.pt 200 0] [Spec.pt 100 0; [nan; nan]] (of_Z 15)
  = Some [(entry_first [Spec.pt 0 0] (Spec.pt 100 0), Spec.pt 100 0)].
Proof. split; vm_compute; reflexivity. Qed.

(** C1 as stated fails, whatever line 60 stores.  Radius 15, cue ball
    (0, 0), pocket (200, 0), the ball (100, 0) and a ball whose two
    coordinates are NaN: both balls have a clear path to the pocket, step 2
    holds one entry, of the ball (100, 0), and the match on the ball index
    returns the pair of that ball alone; [selectClearShots] never does,
    because whatever has two coordinates and passes the comparison with
    (100, 0) passes it with (NaN, NaN) too.

    It fails with the object ball stored on line 60 on balls that share
    near-identical coordinates.  Radius 1e-10, cue ball (0, 0), pocket
    (200, 0) and the balls
    A = (100, 0), B = (100, 5e-10), C = (50, 2.5e-10): all three have a clear
    path to the pocket; C lies on the line from B to the cue ball and hides
    B from it, and lies 2.5e-10 off the line from A; so step 2 holds entries
    of A and C and none of B, and the match on the ball index returns the
    pairs of A and C.  With the object ball stored, [selectClearShots]
    returns the pair of B as well, because B is within 1e-9 of A.  With
    [cueballs[0]] stored, on the table of the first scenario of section 8
    (radius 15), the match on the ball index returns the pair of the ball
    and [selectClearShots] returns nothing. *)
Lemma selectClearShots_differs_from_index_match :
  (forall R : Line60,
      spec_selectClearShots (G := Spec.geometry) (M := Spec.cmath) (R := R)
        [Spec.pt 0 0] [Spec.pt 200 0] [Spec.pt 100 0; [nan; nan]] (of_Z 15)
      = Some [(Spec.pt 100 0, Spec.pt 200 0)] /\
      selectClearShots (G := Spec.geometry) (M := Spec.cmath) (R := R)
        [Spec.pt 0 0] [Spec.pt 200 0] [Spec.pt 100 0; [nan; nan]] (of_Z 15)
      <> Some [(Spec.pt 100 0, Spec.pt 200 0)]) /\
  (selectClearShots (G := Spec.geometry) (M := Spec.cmath)
     (R := stores_object_ball)
     [Spec.pt 0 0] [Spec.pt 200 0]
     [Spec.pt 100 0; [of_Z 100; dec 5 10]; [of_Z 50; dec 25 11]] (dec 1 10)
   = Some [(Spec.pt 100 0, Spec.pt 200 0);
           ([of_Z 100; dec 5 10], Spec.pt 200 0);
           ([of_Z 50; dec 25 11], Spec.pt 200 0)] /\
   spec_selectClearShots (G := Spec.geometry) (M := Spec.cmath)
     (R := stores_object_ball)
     [Spec.pt 0 0] [Spec.pt 200 0]
     [Spec.pt 100 0; [of_Z 100; dec 5 10]; [of_Z 50; dec 25 11]] (dec 1 10)
   = Some [(Spec.pt 100 0, Spec.pt 200 0);
           ([of_Z 50; dec 25 11], Spec.pt 200 0)] /\
   cue_child_result (G := Spec.geometry) (M := Spec.cmath)
     (R := stores_object_ball)
     [Spec.pt 0 0] [Spec.pt 200 0]
     [Spec.pt 100 0; [of_Z 100; dec 5 10]; [of_Z 50; dec 25 11]] (dec 1 10)
   = Some [(Spec.pt 100 0, Spec.pt 100 0);
           ([of_Z 50; dec 25 11], [of_Z 50; dec 25 11])] /\
   same_ball [of_Z 100; dec 5 10] (Spec.pt 100 0) = true) /\
  (selectClearShots (G := Spec.geometry) (M := Spec.cmath)
     (R := stores_cue_ball)
     [Spec.pt 0 0] [Spec.pt 200 0] [Spec.pt 100 0] (of_Z 15) = Some [] /\
   spec_selectClearShots (G := Spec.geometry) (M := Spec.cmath)
     (R := stores_cue_ball)
     [Spec.pt 0 0] [Spec.pt 200 0] [Spec.pt 100 0] (of_Z 15) =
   Some [(Spec.pt 100 0, Spec.pt 200 0)]).
Proof.
  split; [|repeat split; vm_compute; reflexivity].
  intros R. split; [apply nan_table_index_match|].
  unfold selectClearShots.
  destruct (nan_table_sets R) as [-> ->].
  rewrite match_loop_filter. cbn [filter existsb fst]. rewrite !orb_false_r.
  destruct (same_ball (Spec.pt 100 0)
              (entry_first [Spec.pt 0 0] (Spec.pt 100 0))) eqn:Hball.
  - unfold same_ball in Hball. apply andb_prop in Hball.
    destruct Hball as [Hlen _]. apply Nat.eqb_eq in Hlen.
    rewrite nan_ball_matches by (symmetry; exact Hlen).
    discriminate.
  - destruct (same_ball [nan; nan] _); [|discriminate].
    intros H. vm_compute in H. discriminate.
Qed.


(** ** The order of binary64 *)

Lemma ltb_irrefl (a : double) : ltb a a = false.
Proof.
  unfold ltb, SFltb, SFcompare.
  destruct a as [[]|[]| |[] ma ea]; try reflexivity; float_order.
Qed.

Lemma ltb_trans (a b c : double) :
  ltb a b = true -> ltb b c = true -> ltb a c = true.
Proof.
  unfold ltb, SFltb, SFcompare.
  destruct a as [[]|[]| |[] ma ea], b as [[]|[]| |[] mb eb],
           c as [[]|[]| |[] mc ec];
    try discriminate; try reflexivity; intros Hab Hbc; float_order.
Qed.

Lemma leb_ltb_trans (a b c : double) :
  leb a b = true -> ltb b c = true -> ltb a c = true.
Proof.
  unfold leb, ltb, SFleb, SFltb, SFcompare.
  destruct a as [[]|[]| |[] ma ea], b as [[]|[]| |[] mb eb],
           c as [[]|[]| |[] mc ec];
    try discriminate; try reflexivity; intros Hab Hbc; float_order.
Qed.

Lemma leb_trans (a b c : double) :
  leb a b = true -> leb b c = true -> leb a c = true.
Proof.
  unfold leb, SFleb, SFcompare.
  destruct a as [[]|[]| |[] ma ea], b as [[]|[]| |[] mb eb],
           c as [[]|[]| |[] mc ec];
    try discriminate; try reflexivity; intros Hab Hbc; float_order.
Qed.

Lemma ltb_leb_trans (a b c : double) :
  ltb a b = true -> leb b c = true -> ltb a c = true.
Proof.
  unfold leb, ltb, SFleb, SFltb, SFcompare.
  destruct a as [[]|[]| |[] ma ea], b as [[]|[]| |[] mb eb],
           c as [[]|[]| |[] mc ec];
    try discriminate; try reflexivity; intros Hab Hbc; float_order.
Qed.

Lemma leb_not_ltb (a b : double) : leb a b = true -> ltb b a = false.
Proof.
  unfold leb, ltb, SFleb, SFltb, SFcompare.
  destruct a as [[]|[]| |[] ma ea], b as [[]|[]| |[] mb eb];
    try discriminate; try reflexivity; intros Hab; float_order.
Qed.

Lemma ltb_not_leb (a b : double) : ltb a b = true -> leb b a = false.
Proof.
  unfold leb, ltb, SFleb, SFltb, SFcompare.
  destruct a as [[]|[]| |[] ma ea], b as [[]|[]| |[] mb eb];
    try discriminate; try reflexivity; intros Hab; float_order.
Qed.

Lemma ltb_leb (a b : double) : ltb a b = true -> leb a b = true.
Proof.
  unfold leb, ltb, SFleb, SFltb. now destruct (SFcompare a b) as [[]|].
Qed.

(** Two numbers (not NaN) are comparable. *)
Lemma ltb_or_leb (a b : double) :
  leb a a = true -> leb b b = true -> ltb a b = true \/ leb b a = true.
Proof.
  unfold leb, ltb, SFleb, SFltb, SFcompare.
  destruct a as [[]|[]| |[] ma ea], b as [[]|[]| |[] mb eb];
    try discriminate; auto; intros _ _; float_order; auto.
Qed.

(** Every comparison with a NaN is false. *)
Lemma nan_compares_false (a b : double) :
  leb a a = false ->
  leb a b = false /\ leb b a = false /\ ltb a b = false /\ ltb b a = false.
Proof.
  unfold leb, ltb, SFleb, SFltb, SFcompare.
  destruct a as [[]|[]| |[] ma ea]; try discriminate;
    try (intros _; now destruct b as [[]|[]| |[] mb eb]).
  all: intros H; exfalso; revert H; float_order.
Qed.

(** Among numbers, "not below" is "at least" and "not at most" is
    "above". *)
Lemma not_ltb_leb (a b : double) :
  is_number a = true -> is_number b = true ->
  ltb a b = false -> leb b a = true.
Proof.
  unfold is_number. intros Ha Hb Hlt.
  destruct (ltb_or_leb a b Ha Hb) as [H|H]; [congruence|exact H].
Qed.

Lemma not_leb_ltb (a b : double) :
  is_number a = true -> is_number b = true ->
  leb a b = false -> ltb b a = true.
Proof.
  unfold is_number. intros Ha Hb Hle.
  destruct (ltb_or_leb b a Hb Ha) as [H|H]; [exact H|congruence].
Qed.

(** A strictly nearer candidate replaces the best one: nothing seen so far
    is nearer than it, or as near. *)
Lemma new_least_ltb {A : Type} (d : A -> double) (seen : list A) (m x : double) :
  Forall (fun y => ltb (d y) m = false) seen -> ltb x m = true ->
  Forall (fun y => ltb (d y) x = false) seen.
Proof.
  intros Hseen Hx. rewrite Forall_forall in *. intros y Hy.
  apply not_true_is_false. intros Hyx.
  pose proof (Hseen y Hy) as Hym.
  rewrite (ltb_trans _ _ _ Hyx Hx) in Hym. discriminate.
Qed.

Lemma new_least_leb {A : Type} (d : A -> double) (seen : list A) (m x : double) :
  Forall (fun y => ltb (d y) m = false) seen -> ltb x m = true ->
  Forall (fun y => leb (d y) x = false) seen.
Proof.
  intros Hseen Hx. rewrite Forall_forall in *. intros y Hy.
  apply not_true_is_false. intros Hyx.
  pose proof (Hseen y Hy) as Hym.
  rewrite (leb_ltb_trans _ _ _ Hyx Hx) in Hym. discriminate.
Qed.

(** What the loop invariants say of a list of numbers. *)
Lemma first_least_of_inv {A : Type} (d : A -> double)
      (pre : list A) (x : A) (post : list A) :
  Forall (fun y => is_number (d y) = true) (pre ++ x :: post) ->
  Forall (fun y => ltb (d y) (d x) = false) (pre ++ x :: post) ->
  Forall (fun y => leb (d y) (d x) = false) pre ->
  first_least d pre x post.
Proof.
  intros Hnum Hlt Hpre. rewrite Forall_forall in Hnum, Hlt, Hpre.
  assert (Hx : is_number (d x) = true).
  { apply Hnum, in_or_app. right. now left. }
  split; [exact Hx|]. split; apply Forall_forall; intros y Hy.
  - apply not_leb_ltb; [|exact Hx|now apply Hpre].
    apply Hnum, in_or_app. now left.
  - apply not_ltb_leb; [|exact Hx|].
    + apply Hnum, in_or_app. right. now right.
    + apply Hlt, in_or_app. right. now right.
Qed.

(** A list has at most one first candidate of minimum distance. *)
Lemma first_least_unique {A : Type} (d : A -> double)
      (pre pre' : list A) (x x' : A) (post post' : list A) :
  pre ++ x :: post = pre' ++ x' :: post' ->
  first_least d pre x post -> first_least d pre' x' post' ->
  pre = pre' /\ x = x' /\ post = post'.
Proof.
  revert pre'. induction pre as [|a pre IH]; intros [|a' pre'] Heq H H'.
  - now injection Heq.
  - exfalso. cbn [app] in Heq. injection Heq as -> ->.
    destruct H as (_ & _ & Hpost), H' as (_ & Hpre' & _).
    apply Forall_inv in Hpre'. rewrite Forall_forall in Hpost.
    assert (Hle : leb (d a') (d x') = true).
    { apply Hpost, in_or_app. right. now left. }
    rewrite (ltb_not_leb _ _ Hpre') in Hle. discriminate.
  - exfalso. cbn [app] in Heq. injection Heq as <- <-.
    destruct H as (_ & Hpre & _), H' as (_ & _ & Hpost').
    apply Forall_inv in Hpre. rewrite Forall_forall in Hpost'.
    assert (Hle : leb (d a) (d x) = true).
    { apply Hpost', in_or_app. right. now left. }
    rewrite (ltb_not_leb _ _ Hpre) in Hle. discriminate.
  - cbn [app] in Heq. injection Heq as -> Heq.
    destruct H as (Hx & Hpre & Hpost), H' as (Hx' & Hpre' & Hpost').
    destruct (IH pre' Heq) as (-> & -> & ->).
    + split; [assumption|]. split; [|assumption].
      now apply Forall_inv_tail in Hpre.
    + split; [assumption|]. split; [|assumption].
      now apply Forall_inv_tail in Hpre'.
    + auto.
Qed.

(** ** The two selection loops of [main] *)

Section Loops.

Context {G : GeometryUtils}.

Lemma direct_loop_inv cueball valid_shots :
  Forall (fun s => shot_dist cueball s <> None) valid_shots ->
  forall seen min_dist t,
    direct_inv cueball seen min_dist t ->
    exists min_dist' t',
      direct_loop cueball valid_shots min_dist t = Some (min_dist', t') /\
      direct_inv cueball (seen ++ valid_shots) min_dist' t'.
Proof.
  induction 1 as [|s rest Hs _ IH]; intros seen min_dist t Hinv.
  - exists min_dist, t. now rewrite app_nil_r.
  - cbn [direct_loop].
    assert (Hd : shot_dist cueball s = Some (dist_of cueball s)).
    { unfold dist_of. now destruct (shot_dist cueball s). }
    rewrite Hd.
    replace (seen ++ s :: rest) with ((seen ++ [s]) ++ rest)
      by now rewrite <- app_assoc.
    destruct Hinv as [Hseen Hsel].
    destruct (ltb (dist_of cueball s) min_dist) eqn:Hlt; apply IH.
    + split.
      * apply Forall_app. split; [now apply new_least_ltb with min_dist|].
        constructor; [apply ltb_irrefl|constructor].
      * right. exists seen, s, []. repeat split.
        now apply new_least_leb with min_dist.
    + split.
      * apply Forall_app. split; [assumption|]. now repeat constructor.
      * destruct Hsel as [Hinit|(pre & s0 & post & -> & Hmin & Ht & Hpre)];
          [now left|right].
        exists pre, s0, (post ++ [s]). rewrite <- app_assoc. now repeat split.
Qed.

Lemma flip_loop_inv (flip_shots : list FlipShot) (td0 : double) :
  forall seen best td,
    flip_inv seen best td0 td ->
    flip_inv (seen ++ flip_shots)
             (fst (flip_loop flip_shots best td))
             td0 (snd (flip_loop flip_shots best td)).
Proof.
  induction flip_shots as [|fs rest IH]; intros seen best td Hinv.
  - now rewrite app_nil_r.
  - cbn [flip_loop].
    replace (seen ++ fs :: rest) with ((seen ++ [fs]) ++ rest)
      by now rewrite <- app_assoc.
    destruct Hinv as (pre & post & Hseen & Hlt & Hpre & Htd).
    destruct (ltb (flip_total_distance fs) (flip_total_distance best)) eqn:E;
      apply IH.
    + exists seen, []. repeat split.
      * apply Forall_app. split.
        -- now apply new_least_ltb with (flip_total_distance best).
        -- constructor; [apply ltb_irrefl|constructor].
      * now apply new_least_leb with (flip_total_distance best).
      * destruct seen; [now destruct pre|reflexivity].
    + exists pre, (post ++ [fs]). repeat split.
      * now rewrite Hseen, <- app_assoc.
      * apply Forall_app. split; [assumption|]. now repeat constructor.
      * assumption.
      * assumption.
Qed.

(** No candidate below the running minimum: the loop changes nothing. *)
Lemma direct_loop_none cueball valid_shots m t :
  Forall (fun s => shot_dist cueball s <> None) valid_shots ->
  Forall (fun s => ltb (dist_of cueball s) m = false) valid_shots ->
  direct_loop cueball valid_shots m t = Some (m, t).
Proof.
  induction 1 as [|s rest Hs _ IH]; intros Hnone; [reflexivity|].
  cbn [direct_loop].
  assert (Hd : shot_dist cueball s = Some (dist_of cueball s)).
  { unfold dist_of. now destruct (shot_dist cueball s). }
  rewrite Hd, (Forall_inv Hnone). apply IH.
  now apply Forall_inv_tail in Hnone.
Qed.

(** A best candidate whose distance is NaN is never replaced. *)
Lemma flip_loop_nan (rest : list FlipShot) (first : FlipShot) (td : double) :
  is_number (flip_total_distance first) = false ->
  flip_loop rest first td = (first, td).
Proof.
  unfold is_number. intros Hnan.
  induction rest as [|fs rest IH]; [reflexivity|]. cbn [flip_loop].
  destruct (nan_compares_false _ (flip_total_distance fs) Hnan)
    as (_ & _ & _ & ->).
  exact IH.
Qed.

Lemma flip_loop_first (first : FlipShot) (rest : list FlipShot) (td0 : double) :
  flip_inv (first :: rest)
           (fst (flip_loop (first :: rest) first td0))
           td0 (snd (flip_loop (first :: rest) first td0)).
Proof.
  cbn [flip_loop]. rewrite ltb_irrefl.
  apply (flip_loop_inv rest td0 [first] first td0).
  exists [], []. repeat split; try constructor; try constructor.
  apply ltb_irrefl.
Qed.

End Loops.


(** ** What [selectClearShots] hands to [main] *)

Section PlanFacts.

Context {G : GeometryUtils} {M : Cmath} {R : Line60}.

(** Every returned pair is a step-1 pair whose object ball passes the
    coordinate comparison against the first component of the step-2 entry
    of some ball; the cue ball has then been read. *)
Lemma selectClearShots_elem cueballs holes childballs r res p :
  selectClearShots cueballs holes childballs r = Some res -> In p res ->
  exists cue c0 c1 h0 h1 q0 q1,
    at_ cueballs 0 = Some cue /\
    (exists child, In child childballs /\
                   same_ball (fst p) (entry_first cueballs child) = true) /\
    In (fst p) childballs /\ In (snd p) holes /\
    at_ (fst p) 0 = Some c0 /\ at_ (fst p) 1 = Some c1 /\
    at_ (snd p) 0 = Some h0 /\ at_ (snd p) 1 = Some h1 /\
    at_ cue 0 = Some q0 /\ at_ cue 1 = Some q1.
Proof.
  intros Hres Hin. apply selectClearShots_filter in Hres.
  destruct Hres as (ch & cc & Hch & Hcc & ->).
  apply filter_In in Hin. destruct Hin as [Hin Hex].
  apply existsb_exists in Hex. destruct Hex as (e & He & Hsame).
  destruct (child_hole_result_elem _ _ _ _ _ Hch Hin)
    as (c0 & c1 & h0 & h1 & Hb & Hh & Hc0 & Hc1 & Hh0 & Hh1 & _).
  destruct (cue_child_result_elem _ _ _ _ _ _ Hcc He)
    as (child & hole & cue & _ & _ & q0 & q1 & _ & _ & Hchild & _ & Hcue &
        Hq0 & Hq1 & _ & _ & _ & _ & _ & _ & ->).
  exists cue, c0, c1, h0, h1, q0, q1. cbn [fst] in Hsame.
  repeat split; try assumption. now exists child.
Qed.

Lemma selectClearShots_dist_defined cueballs holes childballs r res :
  selectClearShots cueballs holes childballs r = Some res ->
  Forall (fun s => shot_dist cueballs s <> None) res.
Proof.
  intros Hres. apply Forall_forall. intros p Hin.
  destruct (selectClearShots_elem _ _ _ _ _ _ Hres Hin)
    as (cue & c0 & c1 & h0 & h1 & q0 & q1 & Hcue & _ & _ & _ & Hc0 & Hc1 &
        Hh0 & Hh1 & Hq0 & Hq1).
  unfold shot_dist. rewrite Hc0, Hh0, Hc1, Hh1, Hcue, Hq0, Hq1. discriminate.
Qed.

Context {F : FlipPlanner}.

(** The direct branch of [plan]. *)
Lemma plan_direct cueball childballs holes walls valid_shots :
  selectClearShots cueball holes childballs (of_Z 15) = Some valid_shots ->
  valid_shots <> [] ->
  plan cueball childballs holes walls =
  match direct_loop cueball valid_shots DBL_MAX no_target with
  | Some r => Some (Direct (snd r))
  | None => None
  end.
Proof.
  intros Hsel Hne. unfold plan. rewrite Hsel.
  now destruct valid_shots.
Qed.

(** The bank branch of [plan]. *)
Lemma plan_flip cueball childballs holes walls cue :
  selectClearShots cueball holes childballs (of_Z 15) = Some [] ->
  at_ cueball 0 = Some cue ->
  plan cueball childballs holes walls =
  match evaluateFlipShots cue childballs childballs walls (of_Z 15) with
  | first :: rest =>
      let r := flip_loop (first :: rest) first zero in
      Some (Flip {| target_ball := target_coords (fst r);
                    target_hole := hole_coords (fst r);
                    total_distance := snd r |})
  | [] => Some NoShot
  end.
Proof.
  intros Hsel Hcue. unfold plan. rewrite Hsel, Hcue.
  now destruct (evaluateFlipShots cue childballs childballs walls (of_Z 15)).
Qed.

End PlanFacts.

(** With [cueballs[0]] stored on line 60 no shot is direct on the table of
    the first scenario, whatever the geometry functions compute. *)
Lemma first_scenario_empty (G : GeometryUtils) (M : Cmath) :
  selectClearShots (R := stores_cue_ball)
    [Spec.pt 0 0] [Spec.pt 200 0] [Spec.pt 100 0] (of_Z 15)
  = Some [].
Proof.
  destruct (selectClearShots_total (R := stores_cue_ball) [Spec.pt 0 0]
              [Spec.pt 200 0] [Spec.pt 100 0] (of_Z 15)) as [res Hres].
  { repeat split; [discriminate| | |]; solve_has_xy. }
  rewrite Hres. f_equal. destruct res as [|p res]; [reflexivity|].
  destruct (selectClearShots_elem _ _ _ _ _ p Hres (or_introl eq_refl))
    as (cue & _ & _ & _ & _ & _ & _ & _ & (child & _ & Hsame) & Hin & _).
  destruct Hin as [Hp|[]]. rewrite <- Hp in Hsame.
  vm_compute in Hsame. discriminate.
Qed.

(** On the table of C5 no shot is direct, whatever line 60 stores: the
    second set is empty. *)
Lemma blocked_table_empty (R : Line60) :
  selectClearShots (G := Spec.geometry) (M := Spec.cmath)
    [Spec.pt 0 0] [Spec.pt 200 0] [Spec.pt 100 0; Spec.pt 150 0] (of_Z 15)
  = Some [].
Proof. vm_compute. reflexivity. Qed.


(** ** Claims on the selection in [main] *)

(** C2.  The table of the scenario: cue ball (0, 0), object ball (100, 0),
    pocket (200, 0), no other ball, radius 15.  [ShotPlanner.cpp] does not
    compile (line 60), so the scenario cannot be run on the code as it
    stands; what follows is about the embedding, for every [acos] and with
    the geometry of section 4.1 where a value is computed.  Both visibility
    sets hold their entry of the ball, and [selectClearShots] returns the
    pair exactly when what line 60 stores beside the ball passes the
    comparison of lines 82-89 with the ball (100, 0).  With [cueballs[0]]
    stored it is the cue ball (0, 0) and it does not pass: the list is
    empty, whatever [GeometryUtils] computes, and [main] never selects a
    direct shot.  With the object ball stored the pair is returned and
    [main] selects it with the distance 200. *)
Theorem first_scenario_hangs_on_line_60 :
  forall (M : Cmath) (F : FlipPlanner) (walls : list (list double)),
    (forall R : Line60,
        child_hole_result (G := Spec.geometry) [Spec.pt 200 0]
          [Spec.pt 100 0] (of_Z 15) = Some [(Spec.pt 100 0, Spec.pt 200 0)] /\
        cue_child_result (G := Spec.geometry) [Spec.pt 0 0] [Spec.pt 200 0]
          [Spec.pt 100 0] (of_Z 15) =
        Some [(entry_first [Spec.pt 0 0] (Spec.pt 100 0), Spec.pt 100 0)] /\
        selectClearShots (G := Spec.geometry) [Spec.pt 0 0] [Spec.pt 200 0]
          [Spec.pt 100 0] (of_Z 15) =
        Some (if same_ball (Spec.pt 100 0)
                   (entry_first [Spec.pt 0 0] (Spec.pt 100 0))
              then [(Spec.pt 100 0, Spec.pt 200 0)] else [])) /\
    (same_ball (Spec.pt 100 0)
       (entry_first (Line60 := stores_cue_ball) [Spec.pt 0 0] (Spec.pt 100 0))
     = false /\
     forall G : GeometryUtils,
       selectClearShots (G := G) (R := stores_cue_ball)
         [Spec.pt 0 0] [Spec.pt 200 0] [Spec.pt 100 0] (of_Z 15) = Some [] /\
       forall t,
         plan (G := G) (R := stores_cue_ball)
           [Spec.pt 0 0] [Spec.pt 100 0] [Spec.pt 200 0] walls
         <> Some (Direct t)) /\
    (selectClearShots (G := Spec.geometry) (R := stores_object_ball)
       [Spec.pt 0 0] [Spec.pt 200 0] [Spec.pt 100 0] (of_Z 15) =
     Some [(Spec.pt 100 0, Spec.pt 200 0)] /\
     plan (G := Spec.geometry) (R := stores_object_ball)
       [Spec.pt 0 0] [Spec.pt 100 0] [Spec.pt 200 0] walls =
     Some (Direct {| target_ball := Spec.pt 100 0;
                     target_hole := Spec.pt 200 0;
                     total_distance := of_Z 200 |})).
Proof.
  intros M F walls.
  assert (Hsel : forall R : Line60,
             selectClearShots (G := Spec.geometry) [Spec.pt 0 0]
               [Spec.pt 200 0] [Spec.pt 100 0] (of_Z 15) =
             Some (if same_ball (Spec.pt 100 0)
                        (entry_first [Spec.pt 0 0] (Spec.pt 100 0))
                   then [(Spec.pt 100 0, Spec.pt 200 0)] else [])).
  { intros R. unfold selectClearShots.
    rewrite first_scenario_cue_child_result.
    replace (child_hole_result (G := Spec.geometry) [Spec.pt 200 0]
               [Spec.pt 100 0] (of_Z 15))
      with (Some [(Spec.pt 100 0, Spec.pt 200 0)])
      by (vm_compute; reflexivity).
    rewrite match_loop_filter. cbn [filter existsb fst].
    rewrite orb_false_r.
    now destruct (same_ball (Spec.pt 100 0) _). }
  split; [|split].
  - intros R. split; [vm_compute; reflexivity|].
    split; [apply first_scenario_cue_child_result|apply Hsel].
  - split; [vm_compute; reflexivity|]. intros G.
    split; [apply first_scenario_empty|]. intros t.
    rewrite (plan_flip _ _ _ walls (Spec.pt 0 0) (first_scenario_empty G M)
               eq_refl).
    now destruct (evaluateFlipShots _ _ _ _ _).
  - assert (Hobj : selectClearShots (G := Spec.geometry)
                     (R := stores_object_ball)
                     [Spec.pt 0 0] [Spec.pt 200 0] [Spec.pt 100 0] (of_Z 15) =
                   Some [(Spec.pt 100 0, Spec.pt 200 0)]).
    { rewrite Hsel. vm_compute. reflexivity. }
    split; [exact Hobj|].
    rewrite (plan_direct _ _ _ walls _ Hobj) by discriminate.
    vm_compute. reflexivity.
Qed.

(** C4.  Direct candidates are preferred: with a direct list that is not
    empty the outcome does not depend on the bank-shot generator.  Where the
    loop can order its list, [main] selects the first candidate of minimum
    distance: from a direct list of distances that are numbers, one of them
    below the initial bound [numeric_limits<double>::max()], and from a bank
    list of distances that are numbers.  Elsewhere it does not.  From a
    direct list none of whose distances is below the bound the loop selects
    nothing, and [main], connected, reads [target_hole[0]] in the empty
    vector after it has printed "Selected direct shot.".  From a bank list
    whose first distance is NaN the first candidate is selected, whatever
    follows it. *)
Theorem selector_picks_first_least :
  forall (G : GeometryUtils) (M : Cmath) (R : Line60) (F : FlipPlanner)
         (cueball childballs holes walls : list (list double))
         (valid_shots : list shot),
    selectClearShots cueball holes childballs (of_Z 15) = Some valid_shots ->
    (valid_shots <> [] ->
     (forall F' : FlipPlanner,
         plan (F := F') cueball childballs holes walls =
         plan (F := F) cueball childballs holes walls) /\
     (Forall (fun s => is_number (dist_of cueball s) = true) valid_shots ->
      Exists (fun s => ltb (dist_of cueball s) DBL_MAX = true) valid_shots ->
      exists pre s post,
        valid_shots = pre ++ s :: post /\
        first_least (dist_of cueball) pre s post /\
        plan cueball childballs holes walls =
        Some (Direct (direct_target cueball s))) /\
     (Forall (fun s => ltb (dist_of cueball s) DBL_MAX = false) valid_shots ->
      plan cueball childballs holes walls = Some (Direct no_target) /\
      forall dev count,
        (0 <= dev)%Z ->
        main {| device_id := dev; cueball := cueball;
                childballs := childballs; holes := holes; walls := walls;
                ball_count := count |} = None)) /\
    (valid_shots = [] ->
     forall cue first rest,
       at_ cueball 0 = Some cue ->
       evaluateFlipShots cue childballs childballs walls (of_Z 15)
       = first :: rest ->
       (Forall (fun fs => is_number (flip_total_distance fs) = true)
               (first :: rest) ->
        exists pre fs post td,
          first :: rest = pre ++ fs :: post /\
          first_least flip_total_distance pre fs post /\
          plan cueball childballs holes walls =
          Some (Flip {| target_ball := target_coords fs;
                        target_hole := hole_coords fs;
                        total_distance := td |})) /\
       (is_number (flip_total_distance first) = false ->
        plan cueball childballs holes walls =
        Some (Flip {| target_ball := target_coords first;
                      target_hole := hole_coords first;
                      total_distance := zero |}))).
Proof.
  intros G M R F cb balls pockets ws valid_shots Hsel. split.
  - intros Hne.
    pose proof (selectClearShots_dist_defined _ _ _ _ _ Hsel) as Hdef.
    split; [|split].
    + intros F'.
      now rewrite (plan_direct (F := F') _ _ _ ws _ Hsel Hne),
                  (plan_direct (F := F) _ _ _ ws _ Hsel Hne).
    + intros Hnum Hbelow. rewrite (plan_direct _ _ _ ws _ Hsel Hne).
      destruct (direct_loop_inv cb valid_shots Hdef [] DBL_MAX no_target)
        as (m & t & -> & Hlt & Hsel').
      { split; [constructor|now left]. }
      cbn [app] in Hlt, Hsel'.
      destruct Hsel' as [[-> ->]|(pre & s & post & -> & -> & -> & Hpre)].
      * exfalso. apply Exists_exists in Hbelow.
        destruct Hbelow as (s & Hin & Hs). rewrite Forall_forall in Hlt.
        rewrite (Hlt s Hin) in Hs. discriminate.
      * exists pre, s, post. split; [reflexivity|]. split; [|reflexivity].
        now apply first_least_of_inv.
    + intros Hnone.
      assert (Hplan : plan cb balls pockets ws = Some (Direct no_target)).
      { rewrite (plan_direct _ _ _ ws _ Hsel Hne).
        now rewrite (direct_loop_none _ _ _ _ Hdef Hnone). }
      split; [exact Hplan|]. intros dev count Hdev. unfold main.
      cbn [device_id cueball childballs holes walls].
      destruct (Z.ltb_spec dev 0) as [Hneg|_]; [lia|].
      rewrite Hplan. reflexivity.
  - intros -> cue first rest Hcue Hflips.
    rewrite (plan_flip _ _ _ ws cue Hsel Hcue), Hflips. split.
    + intros Hnum.
      destruct (flip_loop_first first rest zero)
        as (pre & post & Hseen & Hlt & Hpre & _).
      exists pre, (fst (flip_loop (first :: rest) first zero)), post,
        (snd (flip_loop (first :: rest) first zero)).
      split; [assumption|]. split; [|reflexivity].
      remember (fst (flip_loop (first :: rest) first zero)) as best
        eqn:Hbest in *.
      clear Hbest. rewrite Hseen in Hnum, Hlt.
      now apply first_least_of_inv.
    + intros Hnan. cbn [flip_loop]. rewrite ltb_irrefl.
      now rewrite (flip_loop_nan _ _ _ Hnan).
Qed.

(** A ball 1e-10 from the cue ball is a direct shot of length 200, with
    either reading of line 60; with the pocket at (1e200, 0) its length is
    infinite and [main] reads past the end of [target_hole]; with no direct
    shot and the bank candidates 300, 250, 250 the second is taken, and with
    the bank candidates NaN, 5 the first. *)
Lemma selector_picks_first_least_witness :
  (exists pre s post,
      [([dec 1 10; of_Z 0], Spec.pt 200 0)] = pre ++ s :: post /\
      first_least (dist_of (G := Spec.geometry) [Spec.pt 0 0]) pre s post /\
      plan (G := Spec.geometry) (M := Spec.cmath) (R := stores_cue_ball)
        (F := Spec.flips [])
        [Spec.pt 0 0] [[dec 1 10; of_Z 0]] [Spec.pt 200 0] [] =
      Some (Direct (direct_target (G := Spec.geometry) [Spec.pt 0 0] s))) /\
  main (G := Spec.geometry) (M := Spec.cmath) (R := stores_object_ball)
    (F := Spec.flips [])
    {| device_id := 1; cueball := [Spec.pt 0 0];
       childballs := [[dec 1 10; of_Z 0]]; holes := [Spec.pt (10 ^ 200) 0];
       walls := []; ball_count := 1 |} = None /\
  (exists pre fs post td,
      [ {| target_coords := Spec.pt 150 0; hole_coords := Spec.pt 200 0;
           flip_total_distance := of_Z 300 |};
        {| target_coords := Spec.pt 150 0; hole_coords := Spec.pt 200 50;
           flip_total_distance := of_Z 250 |};
        {| target_coords := Spec.pt 150 0; hole_coords := Spec.pt 200 90;
           flip_total_distance := of_Z 250 |} ] = pre ++ fs :: post /\
      first_least flip_total_distance pre fs post /\
      plan (G := Spec.geometry) (M := Spec.cmath) (R := stores_cue_ball)
        (F := Spec.flips
          [ {| target_coords := Spec.pt 150 0; hole_coords := Spec.pt 200 0;
               flip_total_distance := of_Z 300 |};
            {| target_coords := Spec.pt 150 0; hole_coords := Spec.pt 200 50;
               flip_total_distance := of_Z 250 |};
            {| target_coords := Spec.pt 150 0; hole_coords := Spec.pt 200 90;
               flip_total_distance := of_Z 250 |} ])
        [Spec.pt 0 0] [Spec.pt 100 0; Spec.pt 150 0] [Spec.pt 200 0] [] =
      Some (Flip {| target_ball := target_coords fs;
                    target_hole := hole_coords fs;
                    total_distance := td |})) /\
  plan (G := Spec.geometry) (M := Spec.cmath) (R := stores_cue_ball)
    (F := Spec.flips
      [ {| target_coords := Spec.pt 150 0; hole_coords := Spec.pt 200 0;
           flip_total_distance := nan |};
        {| target_coords := Spec.pt 150 0; hole_coords := Spec.pt 200 50;
           flip_total_distance := of_Z 5 |} ])
    [Spec.pt 0 0] [Spec.pt 100 0; Spec.pt 150 0] [Spec.pt 200 0] [] =
  Some (Flip {| target_ball := Spec.pt 150 0; target_hole := Spec.pt 200 0;
                total_distance := zero |}).
Proof.
  split; [|split; [|split]].
  - apply (selector_picks_first_least Spec.geometry Spec.cmath stores_cue_ball
             (Spec.flips [])
             [Spec.pt 0 0] [[dec 1 10; of_Z 0]] [Spec.pt 200 0] []
             [([dec 1 10; of_Z 0], Spec.pt 200 0)]).
    + vm_compute. reflexivity.
    + discriminate.
    + constructor; [vm_compute; reflexivity|constructor].
    + constructor. vm_compute. reflexivity.
  - apply (selector_picks_first_least Spec.geometry Spec.cmath
             stores_object_ball (Spec.flips [])
             [Spec.pt 0 0] [[dec 1 10; of_Z 0]] [Spec.pt (10 ^ 200) 0] []
             [([dec 1 10; of_Z 0], Spec.pt (10 ^ 200) 0)]).
    + vm_compute. reflexivity.
    + discriminate.
    + constructor; [vm_compute; reflexivity|constructor].
    + lia.
  - refine (proj1 (proj2 (selector_picks_first_least Spec.geometry Spec.cmath
                     stores_cue_ball (Spec.flips _)
                     [Spec.pt 0 0] [Spec.pt 100 0; Spec.pt 150 0]
                     [Spec.pt 200 0] [] []
                     (blocked_table_empty stores_cue_ball))
                  eq_refl (Spec.pt 0 0) _ _ eq_refl eq_refl) _).
    repeat constructor.
  - exact (proj2 (proj2 (selector_picks_first_least Spec.geometry Spec.cmath
                     stores_cue_ball
                     (Spec.flips
                        [ {| target_coords := Spec.pt 150 0;
                             hole_coords := Spec.pt 200 0;
                             flip_total_distance := nan |};
                          {| target_coords := Spec.pt 150 0;
                             hole_coords := Spec.pt 200 50;
                             flip_total_distance := of_Z 5 |} ])
                     [Spec.pt 0 0] [Spec.pt 100 0; Spec.pt 150 0]
                     [Spec.pt 200 0] [] []
                     (blocked_table_empty stores_cue_ball))
                  eq_refl (Spec.pt 0 0)
                  {| target_coords := Spec.pt 150 0;
                     hole_coords := Spec.pt 200 0;
                     flip_total_distance := nan |}
                  [ {| target_coords := Spec.pt 150 0;
                       hole_coords := Spec.pt 200 50;
                       flip_total_distance := of_Z 5 |} ]
                  eq_refl eq_refl) eq_refl).
Defined.

(** The tables on which [main] departs from C4, evaluated.  With the pocket
    at (1e200, 0) the single direct shot, a candidate under either reading
    of line 60, has an infinite length: nothing is selected and [main] reads
    past the end of a vector.  From the bank candidates NaN and 5 the first
    is selected. *)
Lemma selector_picks_nothing_at_the_bound :
  (selectClearShots (G := Spec.geometry) (M := Spec.cmath)
     (R := stores_cue_ball)
     [Spec.pt 0 0] [Spec.pt (10 ^ 200) 0] [[dec 1 10; of_Z 0]] (of_Z 15) =
   Some [([dec 1 10; of_Z 0], Spec.pt (10 ^ 200) 0)] /\
   plan (G := Spec.geometry) (M := Spec.cmath) (R := stores_cue_ball)
     (F := Spec.flips [])
     [Spec.pt 0 0] [[dec 1 10; of_Z 0]] [Spec.pt (10 ^ 200) 0] [] =
   Some (Direct no_target) /\
   main (G := Spec.geometry) (M := Spec.cmath) (R := stores_cue_ball)
     (F := Spec.flips [])
     {| device_id := 1; cueball := [Spec.pt 0 0];
        childballs := [[dec 1 10; of_Z 0]]; holes := [Spec.pt (10 ^ 200) 0];
        walls := []; ball_count := 1 |} = None) /\
  (selectClearShots (G := Spec.geometry) (M := Spec.cmath)
     (R := stores_object_ball)
     [Spec.pt 0 0] [Spec.pt (10 ^ 200) 0] [[dec 1 10; of_Z 0]] (of_Z 15) =
   Some [([dec 1 10; of_Z 0], Spec.pt (10 ^ 200) 0)] /\
   plan (G := Spec.geometry) (M := Spec.cmath) (R := stores_object_ball)
     (F := Spec.flips [])
     [Spec.pt 0 0] [[dec 1 10; of_Z 0]] [Spec.pt (10 ^ 200) 0] [] =
   Some (Direct no_target) /\
   main (G := Spec.geometry) (M := Spec.cmath) (R := stores_object_ball)
     (F := Spec.flips [])
     {| device_id := 1; cueball := [Spec.pt 0 0];
        childballs := [[dec 1 10; of_Z 0]]; holes := [Spec.pt (10 ^ 200) 0];
        walls := []; ball_count := 1 |} = None) /\
  shot_dist (G := Spec.geometry) [Spec.pt 0 0]
    ([dec 1 10; of_Z 0], Spec.pt (10 ^ 200) 0) = Some infinity /\
  (forall R : Line60,
      plan (G := Spec.geometry) (M := Spec.cmath) (R := R)
        (F := Spec.flips
          [ {| target_coords := Spec.pt 150 0; hole_coords := Spec.pt 200 0;
               flip_total_distance := nan |};
            {| target_coords := Spec.pt 150 0; hole_coords := Spec.pt 200 50;
               flip_total_distance := of_Z 5 |} ])
        [Spec.pt 0 0] [Spec.pt 100 0; Spec.pt 150 0] [Spec.pt 200 0] [] =
      Some (Flip {| target_ball := Spec.pt 150 0;
                    target_hole := Spec.pt 200 0;
                    total_distance := zero |})).
Proof. repeat split; try intros R; vm_compute; reflexivity. Qed.

(** C5.  With a single bank candidate the loop of lines 70-75 never enters
    its branch, the only place where [total_distance] is set, so the distance
    handed to [moveToPose] and [executeStrike] is the initial 0, whatever the
    length of the candidate; in general the reported distance is that of the
    selected candidate only when a candidate after the first is selected.  On
    the table with the balls (100, 0) and (150, 0), where no shot is direct
    whatever line 60 stores, and the single bank candidate of length 300,
    [main] selects it and strikes with distance 0. *)
Theorem single_bank_candidate_reports_zero :
  (forall fs : FlipShot,
      flip_loop [fs] fs (total_distance no_target) = (fs, zero)) /\
  (forall (first : FlipShot) (rest : list FlipShot),
      exists pre post,
        first :: rest =
        pre ++ fst (flip_loop (first :: rest) first zero) :: post /\
        snd (flip_loop (first :: rest) first zero) =
        match pre with
        | [] => zero
        | _ :: _ =>
            flip_total_distance (fst (flip_loop (first :: rest) first zero))
        end) /\
  (forall R : Line60,
      selectClearShots (G := Spec.geometry) (M := Spec.cmath) (R := R)
        [Spec.pt 0 0] [Spec.pt 200 0] [Spec.pt 100 0; Spec.pt 150 0] (of_Z 15)
      = Some [] /\
      plan (G := Spec.geometry) (M := Spec.cmath) (R := R)
        (F := Spec.flips [ {| target_coords := Spec.pt 150 0;
                              hole_coords := Spec.pt 200 0;
                              flip_total_distance := of_Z 300 |} ])
        [Spec.pt 0 0] [Spec.pt 100 0; Spec.pt 150 0] [Spec.pt 200 0] []
      = Some (Flip {| target_ball := Spec.pt 150 0;
                      target_hole := Spec.pt 200 0;
                      total_distance := zero |}) /\
      exists pose,
        main (G := Spec.geometry) (M := Spec.cmath) (R := R)
          (F := Spec.flips [ {| target_coords := Spec.pt 150 0;
                                hole_coords := Spec.pt 200 0;
                                flip_total_distance := of_Z 300 |} ])
          {| device_id := 1; cueball := [Spec.pt 0 0];
             childballs := [Spec.pt 100 0; Spec.pt 150 0];
             holes := [Spec.pt 200 0]; walls := []; ball_count := 2 |}
        = Some (0%Z, [Stdout "Selected flip shot via wall.";
                      MoveToPose 1 pose zero;
                      ExecuteStrike 1 zero;
                      ReturnToHome 1 origin_point;
                      Disconnect 1])) /\
  eqb zero (of_Z 300) = false.
Proof.
  split; [|split; [|split]].
  - intros fs. cbn [flip_loop]. now rewrite ltb_irrefl.
  - intros first rest.
    destruct (flip_loop_first first rest zero)
      as (pre & post & Hseen & _ & _ & Htd).
    now exists pre, post.
  - intros R. repeat split; try (vm_compute; reflexivity).
    eexists. vm_compute. reflexivity.
  - vm_compute. reflexivity.
Qed.

(** C6.  When the direct list and the bank list are both empty, planning
    ends in [NoShot], [main] returns -1 and none of the move, strike and
    return-to-home commands is issued; with the arm connected all it does is
    print the message "No available shots (direct or flip)." on the error
    stream. *)
Theorem no_feasible_shot_is_signalled :
  forall (G : GeometryUtils) (M : Cmath) (R : Line60) (F : FlipPlanner)
         (inp : Inputs) (cue : list double),
    selectClearShots (cueball inp) (holes inp) (childballs inp) (of_Z 15)
    = Some [] ->
    at_ (cueball inp) 0 = Some cue ->
    evaluateFlipShots cue (childballs inp) (childballs inp) (walls inp) (of_Z 15)
    = [] ->
    plan (cueball inp) (childballs inp) (holes inp) (walls inp) = Some NoShot /\
    exists evs,
      main inp = Some ((-1)%Z, evs) /\
      existsb is_hardware_action evs = false /\
      ((0 <= device_id inp)%Z ->
       evs = [Stderr "No available shots (direct or flip)."]).
Proof.
  intros G M R F inp cue Hsel Hcue Hflips.
  assert (Hplan : plan (cueball inp) (childballs inp) (holes inp) (walls inp)
                  = Some NoShot).
  { now rewrite (plan_flip _ _ _ _ cue Hsel Hcue), Hflips. }
  split; [exact Hplan|]. unfold main. rewrite Hplan.
  destruct (Z.ltb_spec (device_id inp) 0) as [Hneg|Hpos].
  - eexists. split; [reflexivity|]. split; [reflexivity|]. lia.
  - eexists. split; [reflexivity|]. split; reflexivity.
Qed.

(** The table of C5, where the two balls hide each other from the cue ball
    and no shot is direct, with a bank-shot generator that finds nothing. *)
Lemma no_feasible_shot_is_signalled_witness :
  main (G := Spec.geometry) (M := Spec.cmath) (R := stores_object_ball)
    (F := Spec.flips [])
    {| device_id := 1; cueball := [Spec.pt 0 0];
       childballs := [Spec.pt 100 0; Spec.pt 150 0]; holes := [Spec.pt 200 0];
       walls := []; ball_count := 2 |}
  = Some ((-1)%Z, [Stderr "No available shots (direct or flip)."]).
Proof.
  destruct (no_feasible_shot_is_signalled Spec.geometry Spec.cmath
              stores_object_ball (Spec.flips [])
              {| device_id := 1; cueball := [Spec.pt 0 0];
                 childballs := [Spec.pt 100 0; Spec.pt 150 0];
                 holes := [Spec.pt 200 0];
                 walls := []; ball_count := 2 |} (Spec.pt 0 0)
              (blocked_table_empty stores_object_ball)
              eq_refl eq_refl) as (_ & evs & Hmain & _ & Hevs).
  rewrite Hmain, Hevs; [reflexivity|].
  cbn [device_id]. lia.
Defined.

(** C9.  Two runs on the same cue-ball, object-ball, pocket and wall
    positions produce the same direct candidates (for every radius), the same
    bank candidates and the same selection, whatever the device handle and
    the ball count of each run; with both arms connected the two runs of
    [main] end with the same status and the same messages and commands. *)
Theorem planning_is_deterministic :
  forall (G : GeometryUtils) (M : Cmath) (R : Line60) (F : FlipPlanner)
         (inp1 inp2 : Inputs),
    cueball inp1 = cueball inp2 ->
    childballs inp1 = childballs inp2 ->
    holes inp1 = holes inp2 ->
    walls inp1 = walls inp2 ->
    (forall r,
        selectClearShots (cueball inp1) (holes inp1) (childballs inp1) r =
        selectClearShots (cueball inp2) (holes inp2) (childballs inp2) r) /\
    (forall cue r,
        evaluateFlipShots cue (childballs inp1) (childballs inp1) (walls inp1) r =
        evaluateFlipShots cue (childballs inp2) (childballs inp2) (walls inp2) r) /\
    plan (cueball inp1) (childballs inp1) (holes inp1) (walls inp1) =
    plan (cueball inp2) (childballs inp2) (holes inp2) (walls inp2) /\
    ((0 <= device_id inp1)%Z -> (0 <= device_id inp2)%Z ->
     erase_devices (main inp1) = erase_devices (main inp2)).
Proof.
  intros G M R F inp1 inp2 Hcue Hballs Hholes Hwalls.
  split; [|split; [|split]].
  - intros r. now rewrite Hcue, Hballs, Hholes.
  - intros cue r. now rewrite Hballs, Hwalls.
  - now rewrite Hcue, Hballs, Hholes, Hwalls.
  - intros H1 H2. unfold main.
    destruct (Z.ltb_spec (device_id inp1) 0); [lia|].
    destruct (Z.ltb_spec (device_id inp2) 0); [lia|].
    rewrite Hcue, Hballs, Hholes, Hwalls.
    destruct (plan _ _ _ _) as [[t|t|]|]; try reflexivity;
      unfold strike; now destruct (hit_pose (cueball inp2) t).
Qed.

(** Two runs on one table, through different device handles and with
    different ball counts on file. *)
Lemma planning_is_deterministic_witness :
  erase_devices
    (main (G := Spec.geometry) (M := Spec.cmath) (R := stores_object_ball)
       (F := Spec.flips [ {| target_coords := Spec.pt 100 0;
                             hole_coords := Spec.pt 200 0;
                             flip_total_distance := of_Z 300 |} ])
       {| device_id := 1; cueball := [Spec.pt 0 0];
          childballs := [Spec.pt 100 0]; holes := [Spec.pt 200 0];
          walls := []; ball_count := 1 |}) =
  erase_devices
    (main (G := Spec.geometry) (M := Spec.cmath) (R := stores_object_ball)
       (F := Spec.flips [ {| target_coords := Spec.pt 100 0;
                             hole_coords := Spec.pt 200 0;
                             flip_total_distance := of_Z 300 |} ])
       {| device_id := 7; cueball := [Spec.pt 0 0];
          childballs := [Spec.pt 100 0]; holes := [Spec.pt 200 0];
          walls := []; ball_count := 15 |}).
Proof.
  refine (proj2 (proj2 (proj2
            (planning_is_deterministic Spec.geometry Spec.cmath
               stores_object_ball (Spec.flips _)
               {| device_id := 1; cueball := [Spec.pt 0 0];
                  childballs := [Spec.pt 100 0]; holes := [Spec.pt 200 0];
                  walls := []; ball_count := 1 |}
               {| device_id := 7; cueball := [Spec.pt 0 0];
                  childballs := [Spec.pt 100 0]; holes := [Spec.pt 200 0];
                  walls := []; ball_count := 15 |}
               eq_refl eq_refl eq_refl eq_refl))) _ _);
    cbn [device_id]; lia.
Defined.


(** * Further properties *)

(** Deciding the comparisons of [d] with constants from the bounds on [d]
    among the hypotheses. *)
Ltac use_bounds d :=
  repeat match goal with
    | H : leb ?c0 d = true |- context [leb ?c d] =>
        let E := fresh in
        assert (E : leb c c0 = true) by (vm_compute; reflexivity);
        rewrite (leb_trans c c0 d E H); clear E
    | H : leb ?c0 d = true |- context [ltb d ?c] =>
        let E := fresh in
        assert (E : leb c c0 = true) by (vm_compute; reflexivity);
        rewrite (leb_not_ltb c d (leb_trans c c0 d E H)); clear E
    | H : ltb ?c0 d = true |- context [leb d ?c] =>
        let E := fresh in
        assert (E : leb c c0 = true) by (vm_compute; reflexivity);
        rewrite (ltb_not_leb c d (leb_ltb_trans c c0 d E H)); clear E
    | H : ltb d ?c1 = true |- context [ltb d ?c] =>
        let E := fresh in
        assert (E : leb c1 c = true) by (vm_compute; reflexivity);
        rewrite (ltb_leb_trans d c1 c H E); clear E
    | H : ltb d ?c1 = true |- context [leb ?c d] =>
        let E := fresh in
        assert (E : leb c1 c = true) by (vm_compute; reflexivity);
        rewrite (ltb_not_leb d c (ltb_leb_trans d c1 c H E)); clear E
    | H : ltb d ?c1 = true |- context [leb d ?c] =>
        let E := fresh in
        assert (E : leb c1 c = true) by (vm_compute; reflexivity);
        rewrite (ltb_leb d c (ltb_leb_trans d c1 c H E)); clear E
    | H : leb d ?c1 = true |- context [ltb d ?c] =>
        let E := fresh in
        assert (E : ltb c1 c = true) by (vm_compute; reflexivity);
        rewrite (leb_ltb_trans d c1 c H E); clear E
    | H : leb d ?c1 = true |- context [leb ?c d] =>
        let E := fresh in
        assert (E : ltb c1 c = true) by (vm_compute; reflexivity);
        rewrite (ltb_not_leb d c (leb_ltb_trans d c1 c H E)); clear E
    | H : leb d ?c1 = true |- context [leb d ?c] =>
        let E := fresh in
        assert (E : leb c1 c = true) by (vm_compute; reflexivity);
        rewrite (leb_trans d c1 c H E); clear E
    end.

Ltac cut_at d c :=
  let H := fresh "Hcut" in
  destruct (ltb_or_leb d c) as [H|H];
  [assumption | vm_compute; reflexivity | | ].

(** ** RobotController.cpp *)

(** The tests of [executeStrike] cut the doubles into nine classes. *)
Lemma strike_tests_cases (d : double) :
  In (strike_tests d)
     [(true, false, false, false, false, false, false, false);
      (true, true, false, false, false, false, false, false);
      (false, true, false, false, false, false, false, false);
      (false, false, true, false, false, false, false, true);
      (false, false, false, true, false, false, false, true);
      (false, false, false, false, true, false, false, true);
      (false, false, false, false, false, true, false, false);
      (false, false, false, false, false, false, true, false);
      (false, false, false, false, false, false, false, false)].
Proof.
  unfold strike_tests, geb. fold leb.
  destruct (leb d d) eqn:Hd.
  - cut_at d (of_Z 100); [use_bounds d; pick_tuple|].
    destruct (leb d (of_Z 100)) eqn:H100; [use_bounds d; pick_tuple|].
    cut_at d (of_Z 150); [use_bounds d; pick_tuple|].
    cut_at d (of_Z 175); [use_bounds d; pick_tuple|].
    cut_at d (of_Z 200); [use_bounds d; pick_tuple|].
    cut_at d (of_Z 250); [use_bounds d; pick_tuple|].
    cut_at d (of_Z 350); [use_bounds d; pick_tuple|].
    cut_at d (of_Z 450); [use_bounds d; pick_tuple|].
    use_bounds d; pick_tuple.
  - repeat match goal with
      | |- context [leb d ?c] =>
          rewrite (proj1 (nan_compares_false d c Hd))
      | |- context [leb ?c d] =>
          rewrite (proj1 (proj2 (nan_compares_false d c Hd)))
      | |- context [ltb d ?c] =>
          rewrite (proj1 (proj2 (proj2 (nan_compares_false d c Hd))))
      end.
    pick_tuple.
Qed.

(** *** [wait] and sequencing *)

Lemma wait_cases (device_id : Z) (states : list Z) :
  (exists pre rest,
      states = pre ++ 1%Z :: rest /\ ~ In 1%Z pre /\
      wait device_id states =
      Returned (repeat (GetMotionState device_id) (S (length pre))) rest) \/
  (~ In 1%Z states /\
   wait device_id states =
   Waiting (repeat (GetMotionState device_id) (length states))).
Proof.
  induction states as [|s states IH]; [right; split; [easy|reflexivity]|].
  cbn [wait then_]. destruct (Z.eqb_spec s 1) as [->|Hs].
  - left. exists [], states. repeat split. easy.
  - destruct IH as [(pre & rest & -> & Hpre & ->)|(Hno & ->)].
    + left. exists (s :: pre), rest. repeat split.
      intros [H1|H1]; [now apply Hs|now apply Hpre].
    + right. split; [|reflexivity].
      intros [H1|H1]; [now apply Hs|now apply Hno].
Qed.

Lemma completions_app (l1 l2 : list Z) :
  completions (l1 ++ l2) = completions l1 + completions l2.
Proof. apply count_occ_app. Qed.

Lemma completions_zero (l : list Z) : completions l = 0 <-> ~ In 1%Z l.
Proof. unfold completions. symmetry. apply count_occ_not_In. Qed.

Lemma consumes_call (trace : list hr_event) : consumes (call trace) 0.
Proof.
  intros states. split; [|lia]. intros _. exists trace, states.
  split; [reflexivity|lia].
Qed.

Lemma consumes_wait (device_id : Z) : consumes (wait device_id) 1.
Proof.
  intros states.
  destruct (wait_cases device_id states)
    as [(pre & rest & -> & Hpre & ->)|(Hno & ->)].
  - apply completions_zero in Hpre. rewrite completions_app.
    change (completions (1%Z :: rest)) with (S (completions rest)).
    split; [|lia]. intros _. eexists _, rest. split; [reflexivity|lia].
  - apply completions_zero in Hno. split; [lia|]. eauto.
Qed.

Lemma consumes_then (f g : list Z -> outcome) (n m : nat) :
  consumes f n -> consumes g m ->
  consumes (fun states => then_ (f states) g) (n + m).
Proof.
  intros Hf Hg states. destruct (Hf states) as [Hret Hwait]. split.
  - intros Hn. destruct Hret as (t & rest & -> & Hrest); [lia|].
    destruct (Hg rest) as [Hret' _].
    destruct Hret' as (t' & rest' & Hg' & Hrest'); [lia|].
    cbn [then_]. rewrite Hg'. eexists _, rest'. split; [reflexivity|lia].
  - intros Hn. destruct (Nat.lt_ge_cases (completions states) n) as [Hlt|Hge].
    + destruct (Hwait Hlt) as [t ->]. cbn [then_]. eauto.
    + destruct (Hret Hge) as (t & rest & -> & Hrest).
      destruct (Hg rest) as [_ Hwait'].
      destruct Hwait' as [t' Hg']; [lia|].
      cbn [then_]. rewrite Hg'. eauto.
Qed.

Lemma wait_app (device_id : Z) (pre rest : list Z) :
  ~ In 1%Z pre ->
  wait device_id (pre ++ 1%Z :: rest) =
  Returned (repeat (GetMotionState device_id) (S (length pre))) rest.
Proof.
  induction pre as [|s pre IH]; intros Hpre; [reflexivity|].
  cbn [app wait then_]. destruct (Z.eqb_spec s 1) as [->|Hs].
  - exfalso. apply Hpre. now left.
  - rewrite IH; [reflexivity|]. intros H1. apply Hpre. now right.
Qed.

Lemma wait_trace (device_id : Z) (states : list Z) :
  exists n, trace_of (wait device_id states) =
            repeat (GetMotionState device_id) n.
Proof.
  destruct (wait_cases device_id states)
    as [(pre & rest & _ & _ & ->)|(_ & ->)]; cbn [trace_of]; eauto.
Qed.

Lemma trace_of_then_wait (device_id : Z) (trace : list hr_event)
      (states : list Z) :
  trace_of (then_ (call trace states) (wait device_id)) =
  trace ++ trace_of (wait device_id states).
Proof.
  unfold call. cbn [then_].
  destruct (wait_cases device_id states)
    as [(pre & rest & _ & _ & ->)|(_ & ->)]; reflexivity.
Qed.

Lemma digital_output_app (device_id : Z) (t t' : list hr_event) (index : Z) :
  existsb writes_output t' = false ->
  digital_output device_id (t ++ t') index = digital_output device_id t index.
Proof.
  unfold digital_output. rewrite fold_left_app.
  generalize (fold_left
    (fun acc e =>
       match e with
       | SetDigitalOutput dev i v =>
           if ((dev =? device_id) && (i =? index))%Z then Some v else acc
       | _ => acc
       end) t None).
  induction t' as [|e t' IH]; intros acc Hno; [reflexivity|].
  cbn [existsb] in Hno. apply orb_false_elim in Hno. destruct Hno as [He Ht'].
  cbn [fold_left]. destruct e; try discriminate; now apply IH.
Qed.

Lemma polls_write_nothing (device_id : Z) (n : nat) :
  existsb writes_output (repeat (GetMotionState device_id) n) = false.
Proof. induction n; [reflexivity|exact IHn]. Qed.

(** The outputs 15 to 9 after the commands of [executeStrike]. *)
Lemma strike_commands_pattern (device_id : Z) (d : double) :
  map (digital_output device_id (strike_commands device_id d))
      [15; 14; 13; 12; 11; 10; 9]%Z =
  intensity_pattern (strike_output d).
Proof.
  pose proof (strike_tests_cases d) as H.
  unfold strike_tests, geb in H. fold leb in H.
  unfold strike_commands, strike_intensity, strike_trigger, strike_output, geb.
  fold leb. cbn [In] in H.
  repeat (destruct H as [H|H]); try contradiction;
    injection H as H1 H2 H3 H4 H5 H6 H7 H8;
    rewrite <- ?H1, <- ?H2, <- ?H3, <- ?H4, <- ?H5, <- ?H6, <- ?H7, <- ?H8;
    unfold digital_output, set_outputs, intensity_pattern;
    cbn [app fold_left map]; rewrite !Z.eqb_refl; reflexivity.
Qed.

(** X1.  [wait] returns exactly when the arm answers 1 ("motion complete"):
    it reads the answers up to the first 1 and leaves the rest; on answers
    without a 1 it polls through all of them and is still waiting.  It reads
    no array. *)
Theorem wait_returns_at_first_completion :
  forall (device_id : Z) (states : list Z),
    (forall trace rest,
        wait device_id states = Returned trace rest <->
        exists pre,
          states = pre ++ 1%Z :: rest /\ ~ In 1%Z pre /\
          trace = repeat (GetMotionState device_id) (S (length pre))) /\
    (forall trace,
        wait device_id states = Waiting trace <->
        ~ In 1%Z states /\
        trace = repeat (GetMotionState device_id) (length states)) /\
    wait device_id states <> OutOfBounds.
Proof.
  intros device_id states. split; [|split].
  - intros trace rest. split.
    + destruct (wait_cases device_id states)
        as [(pre & rest' & Hs & Hpre & ->)|(_ & ->)]; [|discriminate].
      intros [= <- <-]. now exists pre.
    + intros (pre & -> & Hpre & ->). now apply wait_app.
  - intros trace. split.
    + destruct (wait_cases device_id states)
        as [(pre & rest' & _ & _ & ->)|(Hno & ->)]; [discriminate|].
      now intros [= <-].
    + intros [Hno ->].
      destruct (wait_cases device_id states)
        as [(pre & rest' & -> & _ & _)|(_ & ->)]; [|reflexivity].
      exfalso. apply Hno, in_or_app. right. now left.
  - destruct (wait_cases device_id states)
      as [(pre & rest' & _ & _ & ->)|(_ & ->)]; discriminate.
Qed.

(** X2.  [moveToPose] on a pose of six values commands the point-to-point
    move and then the linear move to one and the same pose, the x, y, z and
    yaw it was given with roll and pitch set to 0, whatever roll, pitch and
    distance it was given.  The linear move is commanded only after the arm
    has answered "motion complete" once, and the call returns after the
    second such answer. *)
Theorem moveToPose_sequence :
  forall (device_id : Z) (x y z roll pitch yaw : double) (tl : list double)
         (distance : double) (states : list Z),
    let pose := [x; y; z; of_Z 0; of_Z 0; yaw] in
    match moveToPose device_id (x :: y :: z :: roll :: pitch :: yaw :: tl)
            distance states with
    | Returned trace rest =>
        2 <= completions states /\
        completions rest = completions states - 2 /\
        exists n1 n2,
          trace = [PtpPos device_id 0 pose]
                  ++ repeat (GetMotionState device_id) n1
                  ++ [LinPos device_id 0 0 pose]
                  ++ repeat (GetMotionState device_id) n2
    | Waiting trace =>
        (completions states = 0 /\
         trace = PtpPos device_id 0 pose
                 :: repeat (GetMotionState device_id) (length states)) \/
        (completions states = 1 /\
         exists n1 n2,
           trace = [PtpPos device_id 0 pose]
                   ++ repeat (GetMotionState device_id) n1
                   ++ [LinPos device_id 0 0 pose]
                   ++ repeat (GetMotionState device_id) n2)
    | OutOfBounds => False
    end.
Proof.
  intros device_id x y z roll pitch yaw tl distance states pose.
  unfold moveToPose, call. cbn [at_ nth_error then_]. fold pose.
  destruct (wait_cases device_id states)
    as [(pre & rest & -> & Hpre & ->)|(Hno & ->)].
  - apply completions_zero in Hpre. cbn [then_].
    rewrite completions_app, Hpre.
    change (completions (1%Z :: rest)) with (S (completions rest)).
    destruct (wait_cases device_id rest)
      as [(pre' & rest' & -> & Hpre' & ->)|(Hno' & ->)].
    + apply completions_zero in Hpre'. rewrite completions_app, Hpre'.
      change (completions (1%Z :: rest')) with (S (completions rest')).
      split; [lia|]. split; [lia|].
      exists (S (length pre)), (S (length pre')).
      now rewrite <- !app_assoc.
    + apply completions_zero in Hno'. right. split; [lia|].
      exists (S (length pre)), (length rest). now rewrite <- !app_assoc.
  - apply completions_zero in Hno. left. now split.
Qed.

(** X3.  After [executeStrike], whether it has returned or is still
    waiting, the intensity outputs 15 to 9 depend on the distance alone:
    output 15 alone is on up to 100 (100 included), 14 alone above 100 and
    below 150, 13 alone from 150 and below 250, 12 alone from 250 and below
    350, 10 alone from 350 and below 450; from 450 on, and for a NaN, all
    seven stay on.  The outputs 11 and 9 are on only in that last case. *)
Theorem executeStrike_intensity :
  forall (device_id : Z) (distance : double) (states : list Z),
    map (digital_output device_id
           (trace_of (executeStrike device_id distance states)))
        [15; 14; 13; 12; 11; 10; 9]%Z =
    intensity_pattern (strike_output distance).
Proof.
  intros device_id distance states. unfold executeStrike.
  rewrite trace_of_then_wait.
  destruct (wait_trace device_id states) as [n ->].
  rewrite <- (strike_commands_pattern device_id distance).
  apply map_ext. intros index.
  apply digital_output_app, polls_write_nothing.
Qed.

(** X4.  [executeStrike] writes the trigger output 16 three times, off, on,
    off, with a pause of 500 ms before and after the "on", after every write
    to the intensity outputs; then it only polls the arm, so the trigger is
    left off.  It returns once the arm has answered "motion complete". *)
Theorem executeStrike_trigger_pulse :
  forall (device_id : Z) (distance : double) (states : list Z),
    (exists before n,
        trace_of (executeStrike device_id distance states) =
        before
        ++ [SetDigitalOutput device_id 16 false; Sleep 500;
            SetDigitalOutput device_id 16 true; Sleep 500;
            SetDigitalOutput device_id 16 false]
        ++ repeat (GetMotionState device_id) n /\
        trigger_writes before = []) /\
    digital_output device_id
      (trace_of (executeStrike device_id distance states)) 16 = Some false /\
    consumes (executeStrike device_id distance) 1.
Proof.
  intros device_id distance states. split; [|split].
  - unfold executeStrike. rewrite trace_of_then_wait.
    destruct (wait_trace device_id states) as [n ->].
    exists (strike_intensity device_id distance), n.
    unfold strike_commands, strike_trigger. rewrite <- app_assoc.
    split; [reflexivity|].
    unfold strike_intensity, geb.
    destruct (leb distance (of_Z 100));
      destruct (SFleb (of_Z 100) distance && ltb distance (of_Z 150));
      destruct (SFleb (of_Z 150) distance && ltb distance (of_Z 175));
      destruct (SFleb (of_Z 175) distance && ltb distance (of_Z 200));
      destruct (SFleb (of_Z 200) distance && ltb distance (of_Z 250));
      destruct (SFleb (of_Z 250) distance && ltb distance (of_Z 350));
      destruct (SFleb (of_Z 350) distance && ltb distance (of_Z 450));
      reflexivity.
  - unfold executeStrike. rewrite trace_of_then_wait.
    destruct (wait_trace device_id states) as [n ->].
    rewrite digital_output_app by apply polls_write_nothing.
    unfold strike_commands, strike_trigger, digital_output.
    rewrite fold_left_app. cbn [fold_left].
    now rewrite !Z.eqb_refl.
  - apply (consumes_then (call (strike_commands device_id distance))
             (wait device_id) 0 1);
      [apply consumes_call|apply consumes_wait].
Qed.


(** ** More on ShotPlanner.cpp *)

Lemma existsb_permutation {A : Type} (f : A -> bool) (l l' : list A) :
  Permutation l l' -> existsb f l = existsb f l'.
Proof.
  induction 1 as [|x l l' _ IH|x y l|l l' l'' _ IH1 _ IH2]; cbn [existsb].
  - reflexivity.
  - now rewrite IH.
  - now rewrite !orb_assoc, (orb_comm (f y) (f x)).
  - now rewrite IH1.
Qed.

(** X5.  On obstacles that hold their coordinates the answer of
    [isPathObstructed] does not depend on the order of the obstacles, and
    the answer for two lists put together is the disjunction of the two
    answers: an added obstacle never clears a path. *)
Theorem isPathObstructed_order_independent :
  forall (G : GeometryUtils) (x1 y1 x2 y2 : double)
         (l1 l2 l' : list (list double)) (r : double),
    Forall has_xy l1 -> Forall has_xy l2 -> Permutation (l1 ++ l2) l' ->
    exists b1 b2,
      isPathObstructed x1 y1 x2 y2 l1 r = Some b1 /\
      isPathObstructed x1 y1 x2 y2 l2 r = Some b2 /\
      isPathObstructed x1 y1 x2 y2 (l1 ++ l2) r = Some (b1 || b2) /\
      isPathObstructed x1 y1 x2 y2 l' r = Some (b1 || b2).
Proof.
  intros G x1 y1 x2 y2 l1 l2 l' r H1 H2 Hperm.
  assert (H12 : Forall has_xy (l1 ++ l2)) by (apply Forall_app; now split).
  assert (H' : Forall has_xy l').
  { rewrite Forall_forall in *. intros obs Hin. apply H12.
    now apply (Permutation_in _ (Permutation_sym Hperm)). }
  rewrite (isPathObstructed_existsb _ _ _ _ _ _ H1),
          (isPathObstructed_existsb _ _ _ _ _ _ H2),
          (isPathObstructed_existsb _ _ _ _ _ _ H12),
          (isPathObstructed_existsb _ _ _ _ _ _ H').
  eexists _, _. split; [reflexivity|]. split; [reflexivity|].
  rewrite <- (existsb_permutation _ _ _ Hperm), existsb_app. now split.
Qed.

(** The pocket and two balls, listed in two orders. *)
Lemma isPathObstructed_order_independent_witness :
  isPathObstructed (G := Spec.geometry) (of_Z 0) (of_Z 0) (of_Z 100) (of_Z 0)
    [Spec.pt 150 40; Spec.pt 50 0] (of_Z 15) = Some (false || true).
Proof.
  assert (H1 : Forall has_xy [Spec.pt 50 0]) by solve_has_xy.
  assert (H2 : Forall has_xy [Spec.pt 150 40]) by solve_has_xy.
  destruct (isPathObstructed_order_independent Spec.geometry (of_Z 0) (of_Z 0)
              (of_Z 100) (of_Z 0) [Spec.pt 50 0] [Spec.pt 150 40]
              [Spec.pt 150 40; Spec.pt 50 0] (of_Z 15) H1 H2
              (perm_swap _ _ _))
    as (b1 & b2 & Hb1 & Hb2 & _ & Hperm).
  vm_compute in Hb1, Hb2. injection Hb1 as <-. injection Hb2 as <-.
  rewrite Hperm. reflexivity.
Defined.

Lemma abs_below_positive (x r : double) :
  ltb (abs x) r = true -> ltb zero r = true.
Proof.
  unfold ltb, abs, SFltb, SFabs, SFcompare, zero.
  destruct x as [sx|sx| |sx mx ex], r as [[]|[]| |[] mr er];
    try discriminate; try reflexivity; intros H; float_order.
Qed.

(** X6.  A radius that is not above 0 (zero, negative or NaN) obstructs
    nothing: whatever the geometry functions compute, [isPathObstructed]
    then answers false. *)
Theorem isPathObstructed_needs_positive_radius :
  forall (G : GeometryUtils) (x1 y1 x2 y2 : double)
         (obstacles : list (list double)) (r : double),
    Forall has_xy obstacles -> ltb zero r = false ->
    isPathObstructed x1 y1 x2 y2 obstacles r = Some false.
Proof.
  intros G x1 y1 x2 y2 obstacles r Hwf Hr.
  rewrite (isPathObstructed_existsb _ _ _ _ _ _ Hwf). f_equal.
  apply not_true_is_false. intros Hex. apply existsb_exists in Hex.
  destruct Hex as (obs & _ & Hb).
  destruct obs as [|ox [|oy tl]]; try discriminate.
  cbn [blocks] in Hb. apply andb_prop in Hb. destruct Hb as [Hb _].
  apply andb_prop in Hb. destruct Hb as [_ Hnear]. unfold near_line in Hnear.
  apply abs_below_positive in Hnear. rewrite Hnear in Hr. discriminate.
Qed.

(** The midpoint of the path with the radii 0 and -15. *)
Lemma isPathObstructed_needs_positive_radius_witness :
  isPathObstructed (G := Spec.geometry) (of_Z 0) (of_Z 0) (of_Z 100) (of_Z 0)
    [Spec.pt 50 0] (of_Z 0) = Some false /\
  isPathObstructed (G := Spec.geometry) (of_Z 0) (of_Z 0) (of_Z 100) (of_Z 0)
    [Spec.pt 50 0] (of_Z (-15)) = Some false.
Proof.
  assert (Hwf : Forall has_xy [Spec.pt 50 0]) by solve_has_xy.
  split;
    apply (isPathObstructed_needs_positive_radius Spec.geometry _ _ _ _ _ _ Hwf);
    reflexivity.
Defined.

Lemma for_each_no_output {A B : Type} (l : list A) (body : A -> option (list B)) :
  (forall a, In a l -> body a = Some []) -> for_each l body = Some [].
Proof.
  induction l as [|a l IH]; intros Hbody; [reflexivity|].
  cbn [for_each]. rewrite (Hbody a (or_introl eq_refl)), IH; [reflexivity|].
  intros; apply Hbody; now right.
Qed.







(** X7.  With no object ball, or with no pocket, [selectClearShots] returns
    the empty list and reads nothing: neither the cue-ball list nor a
    coordinate, so an empty cue-ball list and balls without coordinates do
    no harm then. *)
Theorem selectClearShots_empty_table :
  forall (G : GeometryUtils) (M : Cmath) (R : Line60)
         (cueballs holes childballs : list (list double)) (r : double),
    selectClearShots cueballs holes [] r = Some [] /\
    selectClearShots cueballs [] childballs r = Some [].
Proof.
  intros G M R cueballs holes childballs r. split; [reflexivity|].
  unfold selectClearShots, child_hole_result, cue_child_result.
  now rewrite !for_each_no_output.
Qed.



(** *** The coordinate comparison of the matching loop *)

Lemma sub_diag (a : double) : sub a a = zero \/ sub a a = nan.
Proof.
  unfold sub, zero, nan.
  destruct a as [[]|[]| |s m e]; cbn [SFsub]; auto.
  left. set (A := cond_Zopp s _).
  replace (A - A)%Z with 0%Z by lia. reflexivity.
Qed.

Lemma abs_reversed (x x' : double) : reversed x x' -> abs x' = abs x.
Proof.
  intros [->|[-> ->]]; [|reflexivity]. now destruct x.
Qed.

Lemma is_same_refl (v : list double) : is_same v v = true.
Proof.
  induction v as [|a v IH]; [reflexivity|]. cbn [is_same].
  destruct (sub_diag a) as [->| ->]; exact IH.
Qed.

Lemma is_same_sym (a b : list double) : is_same a b = is_same b a.
Proof.
  revert b. induction a as [|x a IH]; intros [|y b]; try reflexivity.
  cbn [is_same]. rewrite (abs_reversed _ _ (sub_swap x y)), IH. reflexivity.
Qed.

(** X10.  The comparison of lines 82-89 accepts every vector compared with
    itself, infinite and NaN coordinates included; it is symmetric; and a
    NaN coordinate passes against any coordinate, because [> 1e-9] is false
    for a NaN. *)
Theorem same_ball_is_reflexive_and_symmetric :
  (forall v : list double, same_ball v v = true) /\
  (forall a b : list double, same_ball a b = same_ball b a) /\
  (forall (x : double) (a b : list double),
      is_same (nan :: a) (x :: b) = is_same a b /\
      is_same (x :: a) (nan :: b) = is_same a b).
Proof.
  split; [|split].
  - intros v. unfold same_ball. now rewrite Nat.eqb_refl, is_same_refl.
  - intros a b. unfold same_ball.
    now rewrite Nat.eqb_sym, is_same_sym.
  - intros x a b. cbn [is_same]. split; [reflexivity|].
    now destruct x.
Qed.


(** ** More on main.cpp *)

Section MainFacts.

Context {G : GeometryUtils} {M : Cmath} {R : Line60} {F : FlipPlanner}.

Lemma hit_pose_length cueball t pose :
  hit_pose cueball t = Some pose ->
  length pose = 6 /\ at_ pose 2 = Some (of_Z 0) /\
  at_ pose 3 = Some (of_Z 0) /\ at_ pose 4 = Some (of_Z 0).
Proof.
  unfold hit_pose.
  destruct (at_ (target_hole t) 0); [|discriminate].
  destruct (at_ (target_ball t) 0); [|discriminate].
  destruct (at_ (target_hole t) 1); [|discriminate].
  destruct (at_ (target_ball t) 1); [|discriminate].
  destruct (at_ cueball 0) as [cue|]; [|discriminate].
  destruct (at_ cue 0); [|discriminate].
  destruct (at_ cue 1); [|discriminate].
  intros [= <-]. repeat split.
Qed.

Lemma strike_shape dev cueball msg t status evs :
  strike dev cueball msg t = Some (status, evs) ->
  status = 0%Z /\
  exists pose,
    hit_pose cueball t = Some pose /\
    evs = [Stdout msg; MoveToPose dev pose (total_distance t);
           ExecuteStrike dev (total_distance t);
           ReturnToHome dev origin_point; Disconnect dev].
Proof.
  unfold strike. destruct (hit_pose cueball t) as [pose|]; [|discriminate].
  intros [= <- <-]. split; [reflexivity|]. now exists pose.
Qed.

Lemma plan_no_shot cueball childballs holes walls :
  plan cueball childballs holes walls = Some NoShot <->
  selectClearShots cueball holes childballs (of_Z 15) = Some [] /\
  exists cue,
    at_ cueball 0 = Some cue /\
    evaluateFlipShots cue childballs childballs walls (of_Z 15) = [].
Proof.
  split.
  - unfold plan.
    destruct (selectClearShots cueball holes childballs (of_Z 15))
      as [[|s valid_shots]|]; try discriminate.
    + destruct (at_ cueball 0) as [cue|]; [|discriminate].
      destruct (evaluateFlipShots cue childballs childballs walls (of_Z 15))
        eqn:Hflips; [|discriminate].
      intros _. split; [reflexivity|]. now exists cue.
    + now destruct (direct_loop _ _ _ _).
  - intros (Hsel & cue & Hcue & Hflips).
    now rewrite (plan_flip _ _ _ _ cue Hsel Hcue), Hflips.
Qed.

End MainFacts.

(** X11.  Planning ends without a shot exactly when [selectClearShots]
    returns the empty list and [evaluateFlipShots] returns the empty list;
    and with the arm connected [main] returns -1 exactly in that case, its
    only output being the message on the error stream. *)
Theorem main_fails_iff_no_shot :
  forall (G : GeometryUtils) (M : Cmath) (R : Line60) (F : FlipPlanner)
         (inp : Inputs),
    (plan (cueball inp) (childballs inp) (holes inp) (walls inp) = Some NoShot
     <->
     selectClearShots (cueball inp) (holes inp) (childballs inp) (of_Z 15)
     = Some [] /\
     exists cue,
       at_ (cueball inp) 0 = Some cue /\
       evaluateFlipShots cue (childballs inp) (childballs inp) (walls inp)
         (of_Z 15) = []) /\
    ((0 <= device_id inp)%Z ->
     forall evs,
       main inp = Some ((-1)%Z, evs) <->
       plan (cueball inp) (childballs inp) (holes inp) (walls inp)
       = Some NoShot /\
       evs = [Stderr "No available shots (direct or flip)."]).
Proof.
  intros G M R F inp. split; [apply plan_no_shot|].
  intros Hdev evs. unfold main.
  destruct (Z.ltb_spec (device_id inp) 0) as [Hneg|_]; [lia|].
  destruct (plan _ _ _ _) as [[t|t|]|].
  - split; [|intros [[=] _]]. intros Hs.
    apply strike_shape in Hs. destruct Hs as [[=] _].
  - split; [|intros [[=] _]]. intros Hs.
    apply strike_shape in Hs. destruct Hs as [[=] _].
  - split; [intros [= <-]; now split|]. now intros [_ ->].
  - split; [discriminate|]. now intros [[=] _].
Qed.

(** The table of C5, where no shot is direct, and no bank shot: the run
    fails. *)
Lemma main_fails_iff_no_shot_witness :
  plan (G := Spec.geometry) (M := Spec.cmath) (R := stores_object_ball)
    (F := Spec.flips [])
    [Spec.pt 0 0] [Spec.pt 100 0; Spec.pt 150 0] [Spec.pt 200 0] []
  = Some NoShot.
Proof.
  pose (inp := {| device_id := 1; cueball := [Spec.pt 0 0];
                  childballs := [Spec.pt 100 0; Spec.pt 150 0];
                  holes := [Spec.pt 200 0];
                  walls := []; ball_count := 2 |}).
  assert (Hdev : (0 <= device_id inp)%Z) by (cbn; lia).
  apply (proj2 (main_fails_iff_no_shot Spec.geometry Spec.cmath
                  stores_object_ball (Spec.flips []) inp) Hdev
               [Stderr "No available shots (direct or flip)."]).
  vm_compute. reflexivity.
Defined.

(** X12.  A run of [main] that returns ends with status 0 or -1.  With
    status 0 it has printed one message and commanded, in this order, the
    move to a pose of six values (z, roll and pitch 0), the strike with the
    same distance, the return to the home pose and the disconnection; with
    status -1 it has printed one message on the error stream and nothing
    else, so the connection it opened is not closed. *)
Theorem main_runs_have_two_shapes :
  forall (G : GeometryUtils) (M : Cmath) (R : Line60) (F : FlipPlanner)
         (inp : Inputs) (status : Z) (evs : list event),
    main inp = Some (status, evs) ->
    (status = 0%Z /\
     exists msg pose distance,
       evs = [Stdout msg;
              MoveToPose (device_id inp) pose distance;
              ExecuteStrike (device_id inp) distance;
              ReturnToHome (device_id inp) origin_point;
              Disconnect (device_id inp)] /\
       length pose = 6 /\ at_ pose 2 = Some (of_Z 0) /\
       at_ pose 3 = Some (of_Z 0) /\ at_ pose 4 = Some (of_Z 0)) \/
    (status = (-1)%Z /\ exists msg, evs = [Stderr msg]).
Proof.
  intros G M R F inp status evs. unfold main.
  destruct (Z.ltb (device_id inp) 0).
  - intros [= <- <-]. right. split; [reflexivity|]. eauto.
  - destruct (plan _ _ _ _) as [[t|t|]|]; try discriminate.
    + intros Hs. apply strike_shape in Hs.
      destruct Hs as (-> & pose & Hpose & ->). left. split; [reflexivity|].
      exists "Selected direct shot."%string, pose, (total_distance t).
      split; [reflexivity|]. exact (hit_pose_length _ _ _ Hpose).
    + intros Hs. apply strike_shape in Hs.
      destruct Hs as (-> & pose & Hpose & ->). left. split; [reflexivity|].
      exists "Selected flip shot via wall."%string, pose, (total_distance t).
      split; [reflexivity|]. exact (hit_pose_length _ _ _ Hpose).
    + intros [= <- <-]. right. split; [reflexivity|]. eauto.
Qed.

(** A run that strikes: the table of the first scenario, the object ball
    stored on line 60. *)
Lemma main_runs_have_two_shapes_witness :
  exists status evs,
    main (G := Spec.geometry) (M := Spec.cmath) (R := stores_object_ball)
      (F := Spec.flips [])
      {| device_id := 1; cueball := [Spec.pt 0 0];
         childballs := [Spec.pt 100 0]; holes := [Spec.pt 200 0];
         walls := []; ball_count := 1 |} = Some (status, evs) /\
    (status = 0%Z \/ status = (-1)%Z).
Proof.
  eexists _, _. split; [vm_compute; reflexivity|].
  match goal with
  | |- ?s = _ \/ _ =>
      destruct (main_runs_have_two_shapes Spec.geometry Spec.cmath
                  stores_object_ball (Spec.flips [])
                  {| device_id := 1; cueball := [Spec.pt 0 0];
                     childballs := [Spec.pt 100 0];
                     holes := [Spec.pt 200 0]; walls := [];
                     ball_count := 1 |} s _ ltac:(vm_compute; reflexivity))
        as [[Hs _]|[Hs _]]; [left|right]; exact Hs
  end.
Defined.

(** X13.  [main] does not check that a cue ball was loaded: with the arm
    connected and an empty cue-ball list no run of [main] is defined,
    whatever the other inputs and whatever line 60 stores.  Some vector is
    read past its end; which one is not stated (a ball without coordinates
    is read first). *)
Theorem main_undefined_without_cue_ball :
  forall (G : GeometryUtils) (M : Cmath) (R : Line60) (F : FlipPlanner)
         (inp : Inputs),
    cueball inp = [] -> (0 <= device_id inp)%Z -> main inp = None.
Proof.
  intros G M R F inp Hcue Hdev. unfold main.
  destruct (Z.ltb_spec (device_id inp) 0) as [Hneg|_]; [lia|].
  unfold plan. rewrite Hcue.
  destruct (selectClearShots [] (holes inp) (childballs inp) (of_Z 15))
    as [[|p res]|] eqn:Hsel; try reflexivity.
  destruct (selectClearShots_elem _ _ _ _ _ p Hsel (or_introl eq_refl))
    as (cue & _ & _ & _ & _ & _ & _ & Hc & _).
  discriminate.
Qed.

(** No cue ball on file, one ball and one pocket. *)
Lemma main_undefined_without_cue_ball_witness :
  main (G := Spec.geometry) (M := Spec.cmath) (R := stores_cue_ball)
    (F := Spec.flips [])
    {| device_id := 1; cueball := []; childballs := [Spec.pt 100 0];
       holes := [Spec.pt 200 0]; walls := []; ball_count := 1 |} = None.
Proof.
  apply main_undefined_without_cue_ball; [reflexivity|cbn; lia].
Defined.

Lemma sub_diag_finite (a : double) : is_finite a = true -> sub a a = zero.
Proof.
  unfold sub, zero.
  destruct a as [[]|[]| |s m e]; try discriminate; try reflexivity.
  intros _. cbn [SFsub]. set (A := cond_Zopp s _).
  replace (A - A)%Z with 0%Z by lia. reflexivity.
Qed.

(** X14.  When the selected ball and pocket have the same finite
    coordinates, the direction of the strike is 0/0: [main] computes a hit
    position whose x and y are NaN, and that is the pose it hands to
    [moveToPose]. *)
Theorem hit_pose_of_ball_in_pocket :
  forall (M : Cmath) (cueball : list (list double))
         (cue : list double) (q0 q1 a b : double) (tlb tlh : list double)
         (distance : double),
    at_ cueball 0 = Some cue -> at_ cue 0 = Some q0 -> at_ cue 1 = Some q1 ->
    is_finite a = true -> is_finite b = true ->
    exists yaw,
      hit_pose cueball
        {| target_ball := a :: b :: tlb; target_hole := a :: b :: tlh;
           total_distance := distance |} =
      Some [nan; nan; of_Z 0; of_Z 0; of_Z 0; yaw].
Proof.
  intros M cueball cue q0 q1 a b tlb tlh distance Hcue Hq0 Hq1 Ha Hb.
  unfold hit_pose. rewrite Hcue, Hq0, Hq1.
  cbn [target_ball target_hole at_ nth_error].
  rewrite (sub_diag_finite a Ha), (sub_diag_finite b Hb).
  replace (sqrt (zero * zero + zero * zero))%double with zero
    by (vm_compute; reflexivity).
  replace (zero / zero)%double with nan by (vm_compute; reflexivity).
  replace (nan * of_Z (15 + 3))%double with nan by (vm_compute; reflexivity).
  replace (q0 + nan)%double with nan by (now destruct q0 as [[]|[]| |[] ? ?]).
  replace (q1 + nan)%double with nan by (now destruct q1 as [[]|[]| |[] ? ?]).
  eauto.
Qed.

(** A bank candidate whose target sits on its pocket. *)
Lemma hit_pose_of_ball_in_pocket_witness :
  exists yaw,
    hit_pose (M := Spec.cmath) [Spec.pt 0 0]
      {| target_ball := Spec.pt 200 0; target_hole := Spec.pt 200 0;
         total_distance := of_Z 300 |} =
    Some [nan; nan; of_Z 0; of_Z 0; of_Z 0; yaw].
Proof.
  apply (hit_pose_of_ball_in_pocket Spec.cmath [Spec.pt 0 0]
           (Spec.pt 0 0) (of_Z 0) (of_Z 0) (of_Z 200) (of_Z 0) [] []
           (of_Z 300)); reflexivity.
Defined.


(** ** [main] through [RobotController] *)

Lemma consumes_not_out_of_bounds (f : list Z -> outcome) (n : nat) :
  consumes f n -> forall states, f states <> OutOfBounds.
Proof.
  intros Hf states. destruct (Hf states) as [Hret Hwait].
  destruct (Nat.lt_ge_cases (completions states) n) as [Hlt|Hge].
  - destruct (Hwait Hlt) as [t ->]. discriminate.
  - destruct (Hret Hge) as (t & rest & -> & _). discriminate.
Qed.

Lemma moveToPose_consumes (device_id : Z) (hit_position : list double)
      (distance : double) :
  6 <= length hit_position ->
  consumes (moveToPose device_id hit_position distance) 2.
Proof.
  intros Hlen.
  destruct hit_position as [|x [|y [|z [|roll [|pitch [|yaw tl]]]]]];
    cbn [length] in Hlen; try lia.
  unfold moveToPose. cbn [at_ nth_error].
  apply (consumes_then _ (wait device_id) 1 1); [|apply consumes_wait].
  apply (consumes_then _ (call _) 1 0); [|apply consumes_call].
  apply (consumes_then (call _) (wait device_id) 0 1);
    [apply consumes_call|apply consumes_wait].
Qed.

Lemma executeStrike_consumes (device_id : Z) (distance : double) :
  consumes (executeStrike device_id distance) 1.
Proof.
  apply (consumes_then (call (strike_commands device_id distance))
           (wait device_id) 0 1);
    [apply consumes_call|apply consumes_wait].
Qed.

Lemma returnToHome_consumes (device_id : Z) (home_pose : list double) :
  consumes (returnToHome device_id home_pose) 1.
Proof.
  apply (consumes_then (call _) (wait device_id) 0 1);
    [apply consumes_call|apply consumes_wait].
Qed.

(** The trace of a sequence. *)
Lemma trace_of_then (o : outcome) (k : list Z -> outcome) :
  o <> OutOfBounds -> (forall s, k s <> OutOfBounds) ->
  trace_of (then_ o k) =
  trace_of o ++ match o with
                | Returned _ rest => trace_of (k rest)
                | _ => []
                end.
Proof.
  intros Ho Hk. destruct o as [t rest|t|]; cbn [then_ trace_of].
  - specialize (Hk rest). now destruct (k rest).
  - now rewrite app_nil_r.
  - now contradict Ho.
Qed.

Lemma silent_then (o : outcome) (k : list Z -> outcome) :
  existsb writes_output (trace_of o) = false ->
  (forall s, existsb writes_output (trace_of (k s)) = false) ->
  existsb writes_output (trace_of (then_ o k)) = false.
Proof.
  intros Ho Hk. destruct o as [t rest|t|]; cbn [then_ trace_of] in *; auto.
  specialize (Hk rest). destruct (k rest) as [t' rest'|t'|];
    cbn [trace_of] in *; auto; rewrite existsb_app, Ho, Hk; reflexivity.
Qed.

Lemma silent_wait (device_id : Z) (states : list Z) :
  existsb writes_output (trace_of (wait device_id states)) = false.
Proof.
  destruct (wait_trace device_id states) as [n ->].
  apply polls_write_nothing.
Qed.

Lemma moveToPose_writes_nothing (device_id : Z) (hit_position : list double)
      (distance : double) (states : list Z) :
  existsb writes_output
    (trace_of (moveToPose device_id hit_position distance states)) = false.
Proof.
  unfold moveToPose.
  destruct (at_ hit_position 0); [|reflexivity].
  destruct (at_ hit_position 1); [|reflexivity].
  destruct (at_ hit_position 2); [|reflexivity].
  destruct (at_ hit_position 5); [|reflexivity].
  repeat (apply silent_then; [|intros; try apply silent_wait; reflexivity]).
  reflexivity.
Qed.

Lemma returnToHome_writes_nothing (device_id : Z) (home_pose : list double)
      (states : list Z) :
  existsb writes_output
    (trace_of (returnToHome device_id home_pose states)) = false.
Proof.
  unfold returnToHome. apply silent_then; [reflexivity|].
  intros. apply silent_wait.
Qed.

Lemma digital_output_front (device_id : Z) (t t' : list hr_event) (index : Z) :
  existsb writes_output t = false ->
  digital_output device_id (t ++ t') index = digital_output device_id t' index.
Proof.
  unfold digital_output. rewrite fold_left_app. intros Hno. f_equal.
  induction t as [|e t IH]; [reflexivity|].
  cbn [existsb] in Hno. apply orb_false_elim in Hno. destruct Hno as [He Ht].
  cbn [fold_left]. destruct e; try discriminate; now apply IH.
Qed.

(** The commands of a successful run, from each point on. *)
Lemma run_consumes (dev : Z) (msg : string) (pose home : list double)
      (d : double) :
  6 <= length pose ->
  consumes (perform_all [ReturnToHome dev home; Disconnect dev]) 1 /\
  consumes (perform_all [ExecuteStrike dev d; ReturnToHome dev home;
                         Disconnect dev]) 2 /\
  consumes (perform_all [MoveToPose dev pose d; ExecuteStrike dev d;
                         ReturnToHome dev home; Disconnect dev]) 4 /\
  consumes (perform_all [Stdout msg; MoveToPose dev pose d;
                         ExecuteStrike dev d; ReturnToHome dev home;
                         Disconnect dev]) 4.
Proof.
  intros Hlen.
  assert (H4 : consumes (perform_all [Disconnect dev]) 0).
  { exact (consumes_then (call [DisconnectCall dev]) (call []) 0 0
             (consumes_call _) (consumes_call _)). }
  assert (H3 : consumes (perform_all [ReturnToHome dev home; Disconnect dev]) 1).
  { exact (consumes_then (returnToHome dev home) _ 1 0
             (returnToHome_consumes _ _) H4). }
  assert (H2 : consumes (perform_all [ExecuteStrike dev d;
                                      ReturnToHome dev home;
                                      Disconnect dev]) 2).
  { exact (consumes_then (executeStrike dev d) _ 1 1
             (executeStrike_consumes _ _) H3). }
  assert (H1 : consumes (perform_all [MoveToPose dev pose d;
                                      ExecuteStrike dev d;
                                      ReturnToHome dev home;
                                      Disconnect dev]) 4).
  { exact (consumes_then (moveToPose dev pose d) _ 2 2
             (moveToPose_consumes _ _ _ Hlen) H2). }
  split; [exact H3|]. split; [exact H2|]. split; [exact H1|].
  exact (consumes_then (call [Cout msg]) _ 0 4 (consumes_call _) H1).
Qed.

(** The intensity outputs a successful run leaves behind. *)
Lemma run_outputs (dev : Z) (msg : string) (pose home : list double)
      (d : double) (states : list Z) :
  6 <= length pose ->
  map (digital_output dev
         (trace_of (perform_all [Stdout msg; MoveToPose dev pose d;
                                 ExecuteStrike dev d; ReturnToHome dev home;
                                 Disconnect dev] states)))
      [15; 14; 13; 12; 11; 10; 9]%Z =
  if 2 <=? completions states then intensity_pattern (strike_output d)
  else repeat None 7.
Proof.
  intros Hlen.
  destruct (run_consumes dev msg pose home d Hlen) as (H3 & H2 & H1 & _).
  set (K3 := perform_all [ReturnToHome dev home; Disconnect dev]) in *.
  set (K2 := perform_all [ExecuteStrike dev d; ReturnToHome dev home;
                          Disconnect dev]) in *.
  set (K1 := perform_all [MoveToPose dev pose d; ExecuteStrike dev d;
                          ReturnToHome dev home; Disconnect dev]) in *.
  assert (HK3 : forall s, existsb writes_output (trace_of (K3 s)) = false).
  { intros s. unfold K3. cbn [perform_all perform].
    apply silent_then; [apply returnToHome_writes_nothing|].
    intros s'. apply silent_then; reflexivity. }
  assert (HK2 : forall s index,
             digital_output dev (trace_of (K2 s)) index =
             digital_output dev (strike_commands dev d) index).
  { intros s index.
    change (K2 s) with (then_ (executeStrike dev d s) K3).
    rewrite trace_of_then;
      [|apply (consumes_not_out_of_bounds _ 1), executeStrike_consumes
       |apply (consumes_not_out_of_bounds _ 1), H3].
    unfold executeStrike at 1. rewrite trace_of_then_wait, <- app_assoc.
    apply digital_output_app. rewrite existsb_app, silent_wait.
    destruct (executeStrike dev d s); try reflexivity. apply HK3. }
  assert (Hpt : forall index,
             digital_output dev
               (trace_of (perform_all [Stdout msg; MoveToPose dev pose d;
                                       ExecuteStrike dev d;
                                       ReturnToHome dev home;
                                       Disconnect dev] states)) index =
             if 2 <=? completions states
             then digital_output dev (strike_commands dev d) index
             else None).
  { intros index.
    change (perform_all [Stdout msg; MoveToPose dev pose d;
                         ExecuteStrike dev d; ReturnToHome dev home;
                         Disconnect dev] states)
      with (then_ (call [Cout msg] states) K1).
    rewrite trace_of_then;
      [|discriminate|apply (consumes_not_out_of_bounds _ 4), H1].
    unfold call. cbn [trace_of].
    rewrite digital_output_front by reflexivity.
    change (K1 states) with (then_ (moveToPose dev pose d states) K2).
    rewrite trace_of_then;
      [|apply (consumes_not_out_of_bounds _ 2), moveToPose_consumes, Hlen
       |apply (consumes_not_out_of_bounds _ 2), H2].
    rewrite digital_output_front by apply moveToPose_writes_nothing.
    destruct (moveToPose_consumes dev pose d Hlen states) as [Hret Hwait].
    destruct (Nat.leb_spec 2 (completions states)) as [Hge|Hlt].
    - destruct (Hret Hge) as (t & rest & -> & _). apply HK2.
    - destruct (Hwait Hlt) as [t ->]. reflexivity. }
  cbn [map]. rewrite !Hpt.
  destruct (2 <=? completions states); [|reflexivity].
  exact (strike_commands_pattern dev d).
Qed.

Section RunFacts.

Context {G : GeometryUtils} {M : Cmath} {R : Line60} {F : FlipPlanner}.

(** What [main] returns, with the plan it followed. *)
Lemma main_cases (inp : Inputs) (status : Z) (evs : list event) :
  main inp = Some (status, evs) ->
  (status = 0%Z /\ (0 <= device_id inp)%Z /\
   exists msg pose t,
     (plan (cueball inp) (childballs inp) (holes inp) (walls inp)
      = Some (Direct t) \/
      plan (cueball inp) (childballs inp) (holes inp) (walls inp)
      = Some (Flip t)) /\
     length pose = 6 /\
     evs = [Stdout msg;
            MoveToPose (device_id inp) pose (total_distance t);
            ExecuteStrike (device_id inp) (total_distance t);
            ReturnToHome (device_id inp) origin_point;
            Disconnect (device_id inp)]) \/
  (status = (-1)%Z /\
   ((device_id inp < 0)%Z \/
    plan (cueball inp) (childballs inp) (holes inp) (walls inp)
    = Some NoShot) /\
   exists msg, evs = [Stderr msg]).
Proof.
  unfold main.
  destruct (Z.ltb_spec (device_id inp) 0) as [Hneg|Hdev].
  - intros [= <- <-]. right. eauto.
  - destruct (plan _ _ _ _) as [[t|t|]|]; try discriminate.
    + intros Hs. apply strike_shape in Hs.
      destruct Hs as (-> & pose & Hpose & ->). left.
      repeat split; [assumption|].
      exists "Selected direct shot."%string, pose, t.
      repeat split; [now left|]. exact (proj1 (hit_pose_length _ _ _ Hpose)).
    + intros Hs. apply strike_shape in Hs.
      destruct Hs as (-> & pose & Hpose & ->). left.
      repeat split; [assumption|].
      exists "Selected flip shot via wall."%string, pose, t.
      repeat split; [now right|]. exact (proj1 (hit_pose_length _ _ _ Hpose)).
    + intros [= <- <-]. right. eauto.
Qed.

End RunFacts.

(** X15.  The commands of a run of [main], carried out by
    [RobotController]: a run with status 0 comes to its end, the
    disconnection included, exactly when the arm reports "motion complete"
    four times (two for the move, one for the strike, one for the return
    home) and polls for ever when it reports fewer; a run with status -1
    never polls the arm. *)
Theorem main_run_needs_four_completions :
  forall (G : GeometryUtils) (M : Cmath) (R : Line60) (F : FlipPlanner)
         (inp : Inputs) (status : Z) (evs : list event),
    main inp = Some (status, evs) ->
    consumes (perform_all evs) (if (status =? 0)%Z then 4 else 0).
Proof.
  intros G M R F inp status evs Hmain.
  destruct (main_cases inp status evs Hmain)
    as [(-> & _ & msg & pose & t & _ & Hlen & ->)|(-> & _ & msg & ->)].
  - apply run_consumes. lia.
  - exact (consumes_then (call [Cerr msg]) (call []) 0 0
             (consumes_call _) (consumes_call _)).
Qed.

(** The run on the table of C5 with its bank candidate. *)
Lemma main_run_needs_four_completions_witness :
  exists status evs,
    main (G := Spec.geometry) (M := Spec.cmath) (R := stores_cue_ball)
      (F := Spec.flips [ {| target_coords := Spec.pt 150 0;
                            hole_coords := Spec.pt 200 0;
                            flip_total_distance := of_Z 300 |} ])
      {| device_id := 1; cueball := [Spec.pt 0 0];
         childballs := [Spec.pt 100 0; Spec.pt 150 0];
         holes := [Spec.pt 200 0];
         walls := []; ball_count := 2 |} = Some (status, evs) /\
    consumes (perform_all evs) 4.
Proof.
  eexists _, _. split; [vm_compute; reflexivity|].
  match goal with
  | |- consumes (perform_all ?evs) 4 =>
      exact (main_run_needs_four_completions Spec.geometry Spec.cmath
               stores_cue_ball
               (Spec.flips [ {| target_coords := Spec.pt 150 0;
                                hole_coords := Spec.pt 200 0;
                                flip_total_distance := of_Z 300 |} ])
               {| device_id := 1; cueball := [Spec.pt 0 0];
                  childballs := [Spec.pt 100 0; Spec.pt 150 0];
                  holes := [Spec.pt 200 0]; walls := [];
                  ball_count := 2 |} 0%Z evs ltac:(vm_compute; reflexivity))
  end.
Defined.

(** X16.  From planning to the arm: when [main] follows a direct or a bank
    plan, the intensity outputs 15 to 9 its run leaves on the arm are those
    [executeStrike] selects for the distance of that plan, as soon as the arm
    has completed the two motions of the move; until then no output has been
    written. *)
Theorem main_strikes_with_planned_distance :
  forall (G : GeometryUtils) (M : Cmath) (R : Line60) (F : FlipPlanner)
         (inp : Inputs) (status : Z) (evs : list event) (t : Target)
         (states : list Z),
    main inp = Some (status, evs) ->
    (0 <= device_id inp)%Z ->
    plan (cueball inp) (childballs inp) (holes inp) (walls inp)
    = Some (Direct t) \/
    plan (cueball inp) (childballs inp) (holes inp) (walls inp)
    = Some (Flip t) ->
    map (digital_output (device_id inp)
           (trace_of (perform_all evs states)))
        [15; 14; 13; 12; 11; 10; 9]%Z =
    if 2 <=? completions states
    then intensity_pattern (strike_output (total_distance t))
    else repeat None 7.
Proof.
  intros G M R F inp status evs t states Hmain Hdev Hplan.
  destruct (main_cases inp status evs Hmain)
    as [(-> & _ & msg & pose & t' & Hplan' & Hlen & ->)
       |(-> & [Hneg|Hno] & _)].
  - assert (t' = t) as ->.
    { destruct Hplan as [H|H], Hplan' as [H'|H']; congruence. }
    apply run_outputs. lia.
  - lia.
  - destruct Hplan as [H|H]; congruence.
Qed.

(** The table of the first scenario with the object ball stored on line
    60: the distance is 200, output 13. *)
Lemma main_strikes_with_planned_distance_witness :
  exists status evs,
    main (G := Spec.geometry) (M := Spec.cmath) (R := stores_object_ball)
      (F := Spec.flips [])
      {| device_id := 1; cueball := [Spec.pt 0 0];
         childballs := [Spec.pt 100 0]; holes := [Spec.pt 200 0];
         walls := []; ball_count := 1 |} = Some (status, evs) /\
    map (digital_output 1 (trace_of (perform_all evs [1; 1; 1; 1]%Z)))
        [15; 14; 13; 12; 11; 10; 9]%Z =
    intensity_pattern (Some 13%Z).
Proof.
  eexists _, _. split; [vm_compute; reflexivity|].
  pose (inp := {| device_id := 1; cueball := [Spec.pt 0 0];
                  childballs := [Spec.pt 100 0];
                  holes := [Spec.pt 200 0]; walls := []; ball_count := 1 |}).
  eassert (Hplan : plan (G := Spec.geometry) (M := Spec.cmath)
                     (R := stores_object_ball)
                     (F := Spec.flips []) (cueball inp) (childballs inp)
                     (holes inp) (walls inp) = Some (Direct _))
    by (vm_compute; reflexivity).
  assert (Hdev : (0 <= device_id inp)%Z) by (cbn; lia).
  match goal with
  | |- map (digital_output _ (trace_of (perform_all ?evs _))) _ = _ =>
      etransitivity;
      [exact (main_strikes_with_planned_distance Spec.geometry Spec.cmath
                stores_object_ball (Spec.flips []) inp 0%Z evs _
                [1; 1; 1; 1]%Z
                ltac:(vm_compute; reflexivity) Hdev (or_introl Hplan))
      |vm_compute; reflexivity]
  end.
Defined.

(** X17.  When no shot is direct and [evaluateFlipShots] returns a single
    candidate, the run of [main] strikes with output 15 alone switched on,
    the setting of the shortest shots, whatever the length of the
    candidate. *)
Theorem single_bank_shot_is_struck_with_output_15 :
  forall (G : GeometryUtils) (M : Cmath) (R : Line60) (F : FlipPlanner)
         (inp : Inputs) (cue : list double) (fs : FlipShot) (status : Z)
         (evs : list event) (states : list Z),
    selectClearShots (cueball inp) (holes inp) (childballs inp) (of_Z 15)
    = Some [] ->
    at_ (cueball inp) 0 = Some cue ->
    evaluateFlipShots cue (childballs inp) (childballs inp) (walls inp)
      (of_Z 15) = [fs] ->
    (0 <= device_id inp)%Z ->
    main inp = Some (status, evs) ->
    2 <= completions states ->
    map (digital_output (device_id inp)
           (trace_of (perform_all evs states)))
        [15; 14; 13; 12; 11; 10; 9]%Z =
    [Some true; Some false; Some false; Some false; Some false; Some false;
     Some false].
Proof.
  intros G M R F inp cue fs status evs states Hsel Hcue Hflips Hdev Hmain
         Hst.
  pose proof (plan_flip _ _ _ (walls inp) cue Hsel Hcue) as Hplan.
  rewrite Hflips in Hplan. cbn [flip_loop fst snd] in Hplan.
  rewrite ltb_irrefl in Hplan. cbn [fst snd] in Hplan.
  destruct (main_cases inp status evs Hmain)
    as [(-> & _ & msg & pose & t & Hplan' & Hlen & ->)
       |(-> & [Hneg|Hno] & _)].
  - assert (total_distance t = zero) as Hzero.
    { destruct Hplan' as [H|H]; rewrite Hplan in H; [discriminate|].
      injection H as <-. reflexivity. }
    rewrite Hzero, run_outputs by lia.
    destruct (Nat.leb_spec 2 (completions states)) as [_|Hlt]; [|lia].
    vm_compute. reflexivity.
  - lia.
  - rewrite Hplan in Hno. discriminate.
Qed.

(** The table of C5: the single bank candidate of length 300. *)
Lemma single_bank_shot_is_struck_with_output_15_witness :
  exists status evs,
    main (G := Spec.geometry) (M := Spec.cmath) (R := stores_cue_ball)
      (F := Spec.flips [ {| target_coords := Spec.pt 150 0;
                            hole_coords := Spec.pt 200 0;
                            flip_total_distance := of_Z 300 |} ])
      {| device_id := 1; cueball := [Spec.pt 0 0];
         childballs := [Spec.pt 100 0; Spec.pt 150 0];
         holes := [Spec.pt 200 0]; walls := []; ball_count := 2 |}
    = Some (status, evs) /\
    map (digital_output 1 (trace_of (perform_all evs [1; 1; 1; 1]%Z)))
        [15; 14; 13; 12; 11; 10; 9]%Z =
    [Some true; Some false; Some false; Some false; Some false; Some false;
     Some false].
Proof.
  eexists _, _. split; [vm_compute; reflexivity|].
  pose (fs := {| target_coords := Spec.pt 150 0;
                 hole_coords := Spec.pt 200 0;
                 flip_total_distance := of_Z 300 |}).
  pose (inp := {| device_id := 1; cueball := [Spec.pt 0 0];
                  childballs := [Spec.pt 100 0; Spec.pt 150 0];
                  holes := [Spec.pt 200 0]; walls := []; ball_count := 2 |}).
  match goal with
  | |- map (digital_output _ (trace_of (perform_all ?evs _))) _ = _ =>
      exact (single_bank_shot_is_struck_with_output_15 Spec.geometry
               Spec.cmath stores_cue_ball (Spec.flips [fs]) inp
               (Spec.pt 0 0) fs 0%Z evs
               [1; 1; 1; 1]%Z
               ltac:(vm_compute; reflexivity) eq_refl eq_refl
               ltac:(cbn; lia) ltac:(vm_compute; reflexivity)
               ltac:(vm_compute; lia))
  end.
Defined.
